(** * tcpip.js: tap-interface bindings and the netmask codec

    A shallow embedding of [TapBindings] and [VirtualTapInterface]
    (the tap bindings module of the [tcpip] package) and of the wire codec's
    [getPrefixLength], with the properties the specification states
    about them. *)

From stdpp Require Import base tactics option list sets numbers strings relations.
From Stdlib Require Import ZArith Lia.

Open Scope Z_scope.

(** ** Errors and results *)

(** The errors the modelled code throws.  The source throws [Error] objects
    that differ only by message; the constructors carry the specification's
    names, the messages are quoted next to them. *)
Inductive Error : Type :=
| NonContiguousBits      (* 'invalid netmask: non-contiguous bits' *)
| SendFailed (code : Z)  (* `failed to send frame: ${result}` *)
| RegistrationFailed     (* 'tap interface failed to register' *)
| StreamNotInitialized   (* 'readable stream not initialized' *)
| AlreadyListening       (* 'readable stream already locked' *)
| HooksNotSet            (* outer hooks looked up on an object that has none *)
| MalformedInput         (* thrown by the wire codec's serializers *)
| TypeError.             (* thrown by the platform's streams *)

Inductive result (A : Type) : Type :=
| Ok (a : A)
| Err (e : Error).
Arguments Ok {A} a.
Arguments Err {A} e.

(** ** Wire codec: netmask to prefix length *)

Module Wire.

(** The eight bits of a byte, most significant first: [(byte >> i) & 1]
    for [i = 7 .. 0]. *)
Definition byte_bits (byte : Z) : list bool :=
  map (fun i => Z.testbit byte i) [7; 6; 5; 4; 3; 2; 1; 0].

(** All bits of a byte sequence, most significant bit of the first byte
    first. *)
Definition netmask_bits (netmask : list Z) : list bool :=
  flat_map byte_bits netmask.

(** The scan over the bits: a one after a zero is an error, every other one
    is counted. *)
Fixpoint scan_bits (bits : list bool) (foundZero : bool) (prefixLength : nat)
  : result nat :=
  match bits with
  | [] => Ok prefixLength
  | true :: rest =>
      if foundZero then Err NonContiguousBits
      else scan_bits rest foundZero (S prefixLength)
  | false :: rest => scan_bits rest true prefixLength
  end.

(** Modelled from the spec: [getPrefixLength] of [packages/wire/src/ipv4.ts],
    of which only the tests are available.  "Counts leading one-bits; fails
    with NonContiguousBits if any zero bit precedes a one bit when scanning
    most-significant-bit first across all 32 bits." *)
Definition getPrefixLength (netmask : list Z) : result nat :=
  scan_bits (netmask_bits netmask) false 0.

(** The pattern [1^k 0^z]. *)
Definition ones_then_zeros (k z : nat) : list bool :=
  repeat true k ++ repeat false z.

(** Some zero bit precedes a one bit. *)
Definition zero_before_one (bits : list bool) : Prop :=
  exists i j : nat, (i < j)%nat /\ bits !! i = Some false /\ bits !! j = Some true.

(** The netmask with [k] leading one-bits, as four bytes. *)
Definition prefix_netmask (k : nat) : list Z :=
  let word := 2 ^ 32 - 2 ^ (32 - Z.of_nat k) in
  [Z.land (Z.shiftr word 24) 255; Z.land (Z.shiftr word 16) 255;
   Z.land (Z.shiftr word 8) 255; Z.land word 255].

End Wire.

(** ** The tap bindings *)

Module Tap.

Abbreviation Pointer := Z (only parsing).
Abbreviation TapInterfaceHandle := Pointer (only parsing).

(** The engine's linear memory, one byte per address. *)
Definition Memory := Pointer -> Z.

(** A reference to a [VirtualTapInterface] object: its index in the heap.
    [===] on objects is equality of references. *)
Abbreviation ObjRef := nat (only parsing).

(** A [Uint8Array] is a view of some storage: either a window of the
    engine's memory ([new Uint8Array(memory.buffer, ptr, len)]) or the whole
    of an [ArrayBuffer] of its own on the JavaScript side. *)
Inductive Uint8Array : Type :=
| MemoryView (ptr : Pointer) (len : nat)
| Owned (id : nat).

(** *** Platform: streams *)

(** A [ReadableStream] with its default controller: the lock, the state
    (readable or closed), the controller's queue of chunks and the number of
    pending [read()] requests of the current reader.  [delivered] is a ghost
    field: the chunks handed to readers so far, oldest first. *)
Record ReadableStream : Type := mkReadableStream {
  locked : bool;
  closed : bool;
  queue : list Uint8Array;
  readRequests : nat;
  delivered : list Uint8Array;
}.

Inductive ReadableStreamController : Type := DefaultController.

Record WritableStream : Type := mkWritableStream { errored : bool }.

Definition ReadableStream_new : ReadableStream :=
  mkReadableStream false false [] 0 [].

Definition WritableStream_new : WritableStream := mkWritableStream false.

(** [controller.enqueue(chunk)]: a [TypeError] once the stream is no longer
    readable; otherwise the chunk fulfils the oldest pending read request if
    there is one and is appended to the queue if not. *)
Definition controller_enqueue (s : ReadableStream) (chunk : Uint8Array)
  : result ReadableStream :=
  if closed s then Err TypeError
  else if locked s && negb (Nat.eqb (readRequests s) 0) then
    Ok (mkReadableStream (locked s) (closed s) (queue s)
          (Nat.pred (readRequests s)) (delivered s ++ [chunk]))
  else
    Ok (mkReadableStream (locked s) (closed s) (queue s ++ [chunk])
          (readRequests s) (delivered s)).

(** [super.getReader()] (and what [pipeTo], [pipeThrough] and [tee] do
    first): a [TypeError] when the stream is locked already. *)
Definition acquire_reader (s : ReadableStream) : result ReadableStream :=
  if locked s then Err TypeError
  else Ok (mkReadableStream true (closed s) (queue s) (readRequests s)
             (delivered s)).

(** [reader.read()]: the head of the queue if there is one; nothing on a
    closed stream; a pending request otherwise. *)
Definition reader_read (s : ReadableStream) : ReadableStream :=
  if negb (locked s) then s
  else match queue s with
       | chunk :: rest =>
           mkReadableStream (locked s) (closed s) rest (readRequests s)
             (delivered s ++ [chunk])
       | [] =>
           if closed s then s
           else mkReadableStream (locked s) (closed s) [] (S (readRequests s))
                  (delivered s)
       end.

(** [reader.releaseLock()]: pending requests are rejected. *)
Definition reader_releaseLock (s : ReadableStream) : ReadableStream :=
  mkReadableStream false (closed s) (queue s) 0 (delivered s).

(** [cancel()]: the stream closes and its queue is reset. *)
Definition stream_cancel (s : ReadableStream) : ReadableStream :=
  mkReadableStream (locked s) true [] 0 (delivered s).

(** *** VirtualTapInterface *)

(** The outer hooks are closures of [register_tap_interface]; all they
    capture besides the bindings object is [handle]. *)
Record TapInterfaceOuterHooks : Type := mkOuterHooks {
  handle : TapInterfaceHandle;
}.

(** The object's fields.  [outerHooks] is the entry of the object in
    [tapInterfaceHooks]; the inner hook is [receiveFrame] below. *)
Record VirtualTapInterface : Type := mkVirtualTapInterface {
  readableController : option ReadableStreamController;
  isListening : bool;
  readable : ReadableStream;
  writable : WritableStream;
  outerHooks : option TapInterfaceOuterHooks;
}.

Definition set_readableController (c : option ReadableStreamController)
  (this : VirtualTapInterface) : VirtualTapInterface :=
  mkVirtualTapInterface c (isListening this) (readable this) (writable this)
    (outerHooks this).

Definition set_isListening (b : bool) (this : VirtualTapInterface)
  : VirtualTapInterface :=
  mkVirtualTapInterface (readableController this) b (readable this)
    (writable this) (outerHooks this).

Definition set_readable (s : ReadableStream) (this : VirtualTapInterface)
  : VirtualTapInterface :=
  mkVirtualTapInterface (readableController this) (isListening this) s
    (writable this) (outerHooks this).

Definition set_writable (s : WritableStream) (this : VirtualTapInterface)
  : VirtualTapInterface :=
  mkVirtualTapInterface (readableController this) (isListening this)
    (readable this) s (outerHooks this).

(** [tapInterfaceHooks.setOuter(tapInterface, hooks)]. *)
Definition setOuter (this : VirtualTapInterface) (hooks : TapInterfaceOuterHooks)
  : VirtualTapInterface :=
  mkVirtualTapInterface (readableController this) (isListening this)
    (readable this) (writable this) (Some hooks).

(** The underlying source handed to [ExtendedReadableStream]: callbacks that
    act on the object that owns the stream. *)
Record ExtendedUnderlyingSource : Type := mkSource {
  start : ReadableStreamController -> VirtualTapInterface -> VirtualTapInterface;
  lock : VirtualTapInterface -> VirtualTapInterface;
}.

(** The source the constructor passes: [start] stores the controller, [lock]
    sets the listening flag. *)
Definition readable_source : ExtendedUnderlyingSource :=
  {| start := fun controller this => set_readableController (Some controller) this;
     lock := fun this => set_isListening true this |}.

(** Modelled from the spec: the constructor of [ExtendedReadableStream]
    ([util.ts], not available).  It is a [ReadableStream] built from the
    underlying source, and the platform's constructor runs the source's
    [start] with the new stream's controller before it returns. *)
Definition ExtendedReadableStream_new (source : ExtendedUnderlyingSource)
  (this : VirtualTapInterface) : ReadableStream * VirtualTapInterface :=
  (ReadableStream_new, start source DefaultController this).

(** Modelled from the spec: [getReader] of [ExtendedReadableStream]
    ([util.ts], not available), standing for every way of locking the stream
    (a reader, [pipeTo], [pipeThrough], [tee]): "listening ... transitions to
    true the first time anything acquires the frame source".  The source's
    [lock] callback runs when the stream gets locked. *)
Definition getReader (source : ExtendedUnderlyingSource)
  (this : VirtualTapInterface) : VirtualTapInterface * result unit :=
  match acquire_reader (readable this) with
  | Err e => (this, Err e)
  | Ok s => (lock source (set_readable s this), Ok tt)
  end.

(** Modelled from the spec: [fromReadable] ([util.ts], not available): "an
    iteration accessor is equivalent to acquiring the frame source and
    exposing it as a lazy ... sequence of frames".  The sequence is then read
    chunk by chunk with [reader_read]. *)
Definition fromReadable (this : VirtualTapInterface)
  : VirtualTapInterface * result unit :=
  getReader readable_source this.

(** [new VirtualTapInterface()]: the field initialisers, then the constructor
    body.  [readable] holds a placeholder until it is assigned. *)
Definition VirtualTapInterface_new : VirtualTapInterface :=
  let this :=
    mkVirtualTapInterface None false ReadableStream_new WritableStream_new None in
  let '(stream, this) := ExtendedReadableStream_new readable_source this in
  let this := set_readable stream this in
  set_writable WritableStream_new this.

(** The inner hook [receiveFrame(frame)].  It is an [async] function without
    [await]: it runs at once, and an exception becomes the returned promise's
    rejection. *)
Definition receiveFrame (this : VirtualTapInterface) (frame : Uint8Array)
  : VirtualTapInterface * result unit :=
  if negb (isListening this) then (this, Ok tt)
  else match readableController this with
       | None => (this, Err StreamNotInitialized)
       | Some _ =>
           match controller_enqueue (readable this) frame with
           | Ok s => (set_readable s this, Ok tt)
           | Err e => (this, Err e)
           end
       end.

(** [listen()], which is also [[Symbol.asyncIterator]()]. *)
Definition listen (this : VirtualTapInterface)
  : VirtualTapInterface * result unit :=
  if locked (readable this) then (this, Err AlreadyListening)
  else fromReadable this.

(** What a consumer can observe of the frame source: the chunks its readers
    were handed and the chunks still queued for them. *)
Definition observable (this : VirtualTapInterface) : list Uint8Array :=
  delivered (readable this) ++ queue (readable this).

(** *** The engine and the other modules *)

(** What the engine does during one call into it, in order: it writes its
    memory and calls the imports. *)
Inductive EngineAction : Type :=
| MemoryStore (ptr : Pointer) (bytes : list Z)
| CallRegisterTapInterface (h : TapInterfaceHandle)
| CallReceiveFrame (h : TapInterfaceHandle) (framePtr : Pointer) (length : nat).

Record EngineRun (E A : Type) : Type := mkEngineRun {
  engine_next : E;
  engine_actions : list EngineAction;
  engine_result : A;
}.
Arguments mkEngineRun {E A}.
Arguments engine_next {E A}.
Arguments engine_actions {E A}.
Arguments engine_result {E A}.

(** [TapExports], over an engine state [E] of which nothing is known.  An
    export sees the engine's state and memory.  [malloc] and [free] are the
    allocator the marshaler of [base.ts] uses. *)
Class TapExports (E : Type) : Type := {
  malloc : E -> nat -> E * Pointer;
  free : E -> Pointer -> E;
  create_tap_interface :
    E -> Memory -> Pointer -> Pointer -> Pointer -> EngineRun E TapInterfaceHandle;
  remove_tap_interface : E -> Memory -> TapInterfaceHandle -> EngineRun E unit;
  send_tap_interface :
    E -> Memory -> TapInterfaceHandle -> Pointer -> nat -> EngineRun E Z;
}.

(** What the module imports from [lwip/errors.ts] and from [@tcpip/wire],
    neither of which is available: the status code [LwipError.ERR_OK] and the
    serializers.  [generateMacAddress] is random: it is given the number of
    the draw. *)
Class Imported : Type := {
  ERR_OK : Z;
  serializeMacAddress : string -> result (list Z);
  generateMacAddress : nat -> list Z;
  serializeIPv4Cidr : string -> result (list Z * list Z);
}.

Record TapInterfaceOptions : Type := mkOptions {
  mac : option string;
  ip : option string;
}.

(** The continuation of [receive_frame] after [await nextMicrotask()]: it
    holds [handle] and [frame]. *)
Inductive Microtask : Type :=
| ResumeReceiveFrame (h : TapInterfaceHandle) (frame : Uint8Array).

Inductive ConsoleEntry : Type :=
| UnknownTapInterface         (* 'received frame on unknown tap interface' *)
| SendFailedLog (err : Error). (* 'tap interface send failed', err *)

(** *** The JavaScript [Map] *)

Section JsMap.
Context {V : Type}.

Fixpoint Map_get (m : list (Z * V)) (k : Z) : option V :=
  match m with
  | [] => None
  | (k', v) :: rest => if decide (k' = k) then Some v else Map_get rest k
  end.

(** [set] keeps the position of a key that is present and appends a new
    one. *)
Fixpoint Map_set (m : list (Z * V)) (k : Z) (v : V) : list (Z * V) :=
  match m with
  | [] => [(k, v)]
  | (k', v') :: rest =>
      if decide (k' = k) then (k, v) :: rest else (k', v') :: Map_set rest k v
  end.

Definition Map_delete (m : list (Z * V)) (k : Z) : list (Z * V) :=
  filter (fun kv => kv.1 <> k) m.
End JsMap.

(** *** Memory *)

Definition load_bytes (mem : Memory) (ptr : Pointer) (len : nat) : list Z :=
  map (fun i => mem (ptr + Z.of_nat i)) (seq 0 len).

Definition store_bytes (mem : Memory) (ptr : Pointer) (bytes : list Z) : Memory :=
  fun a =>
    if decide (ptr <= a < ptr + Z.of_nat (length bytes))
    then default 0 (bytes !! Z.to_nat (a - ptr))
    else mem a.

Section Bindings.
Context {E : Type} `{!TapExports E} `{!Imported}.

(** The state of the program: the engine and its memory, the
    [ArrayBuffer]s of the JavaScript side, the [VirtualTapInterface]
    objects, [TapBindings.interfaces], the microtask queue, the console,
    the rejections of promises nobody awaits, and the number of random
    draws made.  [inbound] is a ghost field: the calls of inner
    [receiveFrame] hooks so far, oldest first. *)
Record World : Type := mkWorld {
  engine : E;
  memory : Memory;
  buffers : list (list Z);
  heap : list VirtualTapInterface;
  interfaces : list (TapInterfaceHandle * ObjRef);
  microtasks : list Microtask;
  console : list ConsoleEntry;
  rejections : list Error;
  draws : nat;
  inbound : list (ObjRef * Uint8Array);
}.

Definition set_engine (e : E) (w : World) : World :=
  mkWorld e (memory w) (buffers w) (heap w) (interfaces w) (microtasks w)
    (console w) (rejections w) (draws w) (inbound w).
Definition set_memory (m : Memory) (w : World) : World :=
  mkWorld (engine w) m (buffers w) (heap w) (interfaces w) (microtasks w)
    (console w) (rejections w) (draws w) (inbound w).
Definition set_buffers (b : list (list Z)) (w : World) : World :=
  mkWorld (engine w) (memory w) b (heap w) (interfaces w) (microtasks w)
    (console w) (rejections w) (draws w) (inbound w).
Definition set_heap (h : list VirtualTapInterface) (w : World) : World :=
  mkWorld (engine w) (memory w) (buffers w) h (interfaces w) (microtasks w)
    (console w) (rejections w) (draws w) (inbound w).
Definition set_interfaces (i : list (TapInterfaceHandle * ObjRef)) (w : World)
  : World :=
  mkWorld (engine w) (memory w) (buffers w) (heap w) i (microtasks w)
    (console w) (rejections w) (draws w) (inbound w).
Definition set_microtasks (q : list Microtask) (w : World) : World :=
  mkWorld (engine w) (memory w) (buffers w) (heap w) (interfaces w) q
    (console w) (rejections w) (draws w) (inbound w).
Definition set_console (c : list ConsoleEntry) (w : World) : World :=
  mkWorld (engine w) (memory w) (buffers w) (heap w) (interfaces w)
    (microtasks w) c (rejections w) (draws w) (inbound w).
Definition set_rejections (r : list Error) (w : World) : World :=
  mkWorld (engine w) (memory w) (buffers w) (heap w) (interfaces w)
    (microtasks w) (console w) r (draws w) (inbound w).
Definition set_draws (n : nat) (w : World) : World :=
  mkWorld (engine w) (memory w) (buffers w) (heap w) (interfaces w)
    (microtasks w) (console w) (rejections w) n (inbound w).
Definition set_inbound (l : list (ObjRef * Uint8Array)) (w : World) : World :=
  mkWorld (engine w) (memory w) (buffers w) (heap w) (interfaces w)
    (microtasks w) (console w) (rejections w) (draws w) l.

Definition init (e : E) (m : Memory) : World :=
  mkWorld e m [] [] [] [] [] [] 0 [].

(** The bytes a [Uint8Array] shows now. *)
Definition contents (w : World) (a : Uint8Array) : list Z :=
  match a with
  | MemoryView ptr len => load_bytes (memory w) ptr len
  | Owned id => default [] (buffers w !! id)
  end.

(** A new [ArrayBuffer] holding [bytes], and the array that owns it. *)
Definition allocate (w : World) (bytes : list Z) : World * Uint8Array :=
  (set_buffers (buffers w ++ [bytes]) w, Owned (length (buffers w))).

(** [new Uint8Array(typedArray)]: the elements are copied into a new
    buffer. *)
Definition Uint8Array_from (w : World) (a : Uint8Array) : World * Uint8Array :=
  allocate w (contents w a).

(** *** The marshaler *)

(** Modelled from the spec: [copyFromMemory] of [base.ts], not available:
    it "reads a snapshot and does not retain any reference into foreign
    memory afterward (copy semantics only - no live aliasing)". *)
Definition copyFromMemory (w : World) (ptr : Pointer) (len : nat)
  : World * Uint8Array :=
  allocate w (load_bytes (memory w) ptr len).

(** Modelled from the spec: [copyToMemory] of [base.ts], not available: it
    "allocates space in the engine's address space, writes the bytes, and
    returns a handle that frees the allocation when its scope ends". *)
Definition copyToMemory (w : World) (bytes : list Z) : World * Pointer :=
  let '(e, ptr) := malloc (engine w) (length bytes) in
  (set_memory (store_bytes (memory w) ptr bytes) (set_engine e w), ptr).

(** The end of the scope of a [using] pointer. *)
Definition dispose (w : World) (ptr : option Pointer) : World :=
  match ptr with
  | Some p => set_engine (free (engine w) p) w
  | None => w
  end.

(** *** TapBindings.imports *)

Definition register_tap_interface (w : World) (h : TapInterfaceHandle) : World :=
  let tapInterface : ObjRef := length (heap w) in
  let object := setOuter VirtualTapInterface_new (mkOuterHooks h) in
  set_interfaces (Map_set (interfaces w) h tapInterface)
    (set_heap (heap w ++ [object]) w).

(** Modelled from the spec: [await nextMicrotask()], [nextMicrotask] being
    of [util.ts], not available.  It "defers delivery to the next scheduling
    quantum": the continuation joins the end of the microtask queue. *)
Definition nextMicrotask (w : World) (continuation : Microtask) : World :=
  set_microtasks (microtasks w ++ [continuation]) w.

(** [receive_frame] up to its [await]: the copy, then the suspension. *)
Definition receive_frame (w : World) (h : TapInterfaceHandle)
  (framePtr : Pointer) (length : nat) : World :=
  let '(w, frame) := copyFromMemory w framePtr length in
  nextMicrotask w (ResumeReceiveFrame h frame).

(** [tapInterfaceHooks.getInner(tapInterface).receiveFrame(frame)], whose
    promise is not awaited.  A reference that is not in the heap does not
    occur (see [registry_closed]); the world is then left as it is. *)
Definition call_receiveFrame (w : World) (tapInterface : ObjRef)
  (frame : Uint8Array) : World :=
  match heap w !! tapInterface with
  | None => w
  | Some this =>
      let '(this, r) := receiveFrame this frame in
      let w := set_inbound (inbound w ++ [(tapInterface, frame)]) w in
      let w := set_heap (<[tapInterface := this]> (heap w)) w in
      match r with
      | Ok _ => w
      | Err e => set_rejections (rejections w ++ [e]) w
      end
  end.

(** [receive_frame] from its [await] on. *)
Definition receive_frame_resume (w : World) (h : TapInterfaceHandle)
  (frame : Uint8Array) : World :=
  match Map_get (interfaces w) h with
  | None => set_console (console w ++ [UnknownTapInterface]) w
  | Some tapInterface =>
      let '(w, copy) := Uint8Array_from w frame in
      call_receiveFrame w tapInterface copy
  end.

(** *** Calls into the engine *)

Definition do_action (w : World) (a : EngineAction) : World :=
  match a with
  | MemoryStore ptr bytes => set_memory (store_bytes (memory w) ptr bytes) w
  | CallRegisterTapInterface h => register_tap_interface w h
  | CallReceiveFrame h framePtr length => receive_frame w h framePtr length
  end.

Definition engine_call {A : Type} (w : World) (run : EngineRun E A) : World * A :=
  (foldl do_action (set_engine (engine_next run) w) (engine_actions run),
   engine_result run).

(** *** The outer hook and the sink *)

(** The outer hook [sendFrame(frame)] of the interface registered under
    [h]. *)
Definition sendFrame (w : World) (h : TapInterfaceHandle) (frame : Uint8Array)
  : World * result unit :=
  let bytes := contents w frame in
  let '(w, framePtr) := copyToMemory w bytes in
  let '(w, result) :=
    engine_call w
      (send_tap_interface (engine w) (memory w) h framePtr (length bytes)) in
  if decide (result <> ERR_OK) then (w, Err (SendFailed result))
  else (w, Ok tt).

(** [tapInterfaceHooks.getOuter(this)]. *)
Definition getOuter (w : World) (this : ObjRef) : result TapInterfaceOuterHooks :=
  match heap w !! this with
  | Some object =>
      match outerHooks object with
      | Some hooks => Ok hooks
      | None => Err HooksNotSet
      end
  | None => Err HooksNotSet
  end.

(** The [write] callback of the sink: [try { ... } catch (err) { ... }]. *)
Definition sink_write (w : World) (this : ObjRef) (packet : Uint8Array)
  : World * result unit :=
  let '(w, attempt) :=
    match getOuter w this with
    | Ok hooks => sendFrame w (handle hooks) packet
    | Err e => (w, Err e)
    end in
  match attempt with
  | Ok _ => (w, Ok tt)
  | Err err => (set_console (console w ++ [SendFailedLog err]) w, Ok tt)
  end.

(** Platform: writing a chunk to a [WritableStream] runs the sink's
    [write]; an exception of the sink errors the stream and rejects the
    write, and every later write is rejected. *)
Definition WritableStream_write (w : World) (this : ObjRef) (packet : Uint8Array)
  : World * result unit :=
  match heap w !! this with
  | None => (w, Err TypeError)
  | Some object =>
      if errored (writable object) then (w, Err TypeError)
      else
        let '(w, r) := sink_write w this packet in
        match r with
        | Ok _ => (w, Ok tt)
        | Err e =>
            (set_heap
               (alter (set_writable (mkWritableStream true)) this (heap w)) w,
             Err e)
        end
  end.

(** *** TapBindings.create and TapBindings.remove *)

(** A string is falsy exactly when it is empty. *)
Definition truthy (s : option string) : option string :=
  match s with
  | Some s => if decide (s = EmptyString) then None else Some s
  | None => None
  end.

Definition create (w : World) (options : TapInterfaceOptions)
  : World * result ObjRef :=
  let '(w, macAddress) :=
    match truthy (mac options) with
    | Some m => (w, serializeMacAddress m)
    | None => (set_draws (S (draws w)) w, Ok (generateMacAddress (draws w)))
    end in
  match macAddress with
  | Err e => (w, Err e)
  | Ok macAddress =>
      let cidr :=
        match truthy (ip options) with
        | Some c =>
            match serializeIPv4Cidr c with
            | Ok (ipAddress, netmask) => Ok (Some ipAddress, Some netmask)
            | Err e => Err e
            end
        | None => Ok (None, None)
        end in
      match cidr with
      | Err e => (w, Err e)
      | Ok (ipAddress, netmask) =>
          let '(w, macAddressPtr) := copyToMemory w macAddress in
          let '(w, ipAddressPtr) :=
            match ipAddress with
            | Some bytes => let '(w, p) := copyToMemory w bytes in (w, Some p)
            | None => (w, None)
            end in
          let '(w, netmaskPtr) :=
            match netmask with
            | Some bytes => let '(w, p) := copyToMemory w bytes in (w, Some p)
            | None => (w, None)
            end in
          let '(w, h) :=
            engine_call w
              (create_tap_interface (engine w) (memory w) macAddressPtr
                 (default 0 ipAddressPtr) (default 0 netmaskPtr)) in
          let tapInterface := Map_get (interfaces w) h in
          let w :=
            dispose (dispose (dispose w netmaskPtr) ipAddressPtr)
              (Some macAddressPtr) in
          match tapInterface with
          | None => (w, Err RegistrationFailed)
          | Some tapInterface => (w, Ok tapInterface)
          end
      end
  end.

(** The loop of [remove] over [this.interfaces.entries()]. *)
Fixpoint remove_entries (w : World)
  (entries : list (TapInterfaceHandle * ObjRef)) (tapInterface : ObjRef)
  : World :=
  match entries with
  | [] => w
  | (h, loopback) :: rest =>
      if decide (loopback = tapInterface) then
        let '(w, _) :=
          engine_call w (remove_tap_interface (engine w) (memory w) h) in
        set_interfaces (Map_delete (interfaces w) h) w
      else remove_entries w rest tapInterface
  end.

Definition remove (w : World) (tapInterface : ObjRef) : World :=
  remove_entries w (interfaces w) tapInterface.

(** *** Runs of the program *)

(** One job of the event loop.  The consumer calls [create], [remove] or
    one of the interface's methods; the engine runs on behalf of another
    part of the stack and calls the imports; the next microtask runs. *)
Inductive Event : Type :=
| EvCreate (options : TapInterfaceOptions)
| EvRemove (tapInterface : ObjRef)
| EvEngine (run : EngineRun E unit)
| EvMicrotask
| EvGetReader (this : ObjRef)
| EvListen (this : ObjRef)
| EvRead (this : ObjRef)
| EvReleaseLock (this : ObjRef)
| EvCancel (this : ObjRef)
| EvWrite (this : ObjRef) (bytes : list Z).

(** A method of the object [this]; its result goes to the consumer. *)
Definition method (w : World) (this : ObjRef)
  (f : VirtualTapInterface -> VirtualTapInterface) : World :=
  set_heap (alter f this (heap w)) w.

Definition on_readable (f : ReadableStream -> ReadableStream)
  (this : VirtualTapInterface) : VirtualTapInterface :=
  set_readable (f (readable this)) this.

Definition step (w : World) (ev : Event) : World :=
  match ev with
  | EvCreate options => (create w options).1
  | EvRemove tapInterface => remove w tapInterface
  | EvEngine run => (engine_call w run).1
  | EvMicrotask =>
      match microtasks w with
      | [] => w
      | ResumeReceiveFrame h frame :: rest =>
          receive_frame_resume (set_microtasks rest w) h frame
      end
  | EvGetReader this => method w this (fun o => (getReader readable_source o).1)
  | EvListen this => method w this (fun o => (listen o).1)
  | EvRead this => method w this (on_readable reader_read)
  | EvReleaseLock this => method w this (on_readable reader_releaseLock)
  | EvCancel this => method w this (on_readable stream_cancel)
  | EvWrite this bytes =>
      let '(w, packet) := allocate w bytes in
      (WritableStream_write w this packet).1
  end.

Definition run (w : World) (evs : list Event) : World := foldl step w evs.

(** *** Invariants of runs *)

(** How one object changes while the program runs, from a point where [n]
    buffers were allocated: the listening flag is never cleared; the
    controller, once stored, stays; the sink does not become errored; a
    locked stream keeps implying the listening flag; and a chunk that has
    become observable is a buffer allocated after that point, handed over
    while the flag was set. *)
Definition obj_evolves (n : nat) (v v' : VirtualTapInterface) : Prop :=
  (isListening v = true -> isListening v' = true) /\
  (is_Some (readableController v) -> is_Some (readableController v')) /\
  (errored (writable v) = false -> errored (writable v') = false) /\
  ((locked (readable v) = true -> isListening v = true) ->
   locked (readable v') = true -> isListening v' = true) /\
  (forall fr, fr ∈ observable v' ->
     fr ∈ observable v \/
     (isListening v' = true /\ exists id, fr = Owned id /\ (n <= id)%nat)).

(** Every object the registry names is in the heap. *)
Definition registry_closed (w : World) : Prop :=
  forall h o, (h, o) ∈ interfaces w -> (o < length (heap w))%nat.

(** Every frame handed to an inner hook owns one of the buffers allocated
    so far. *)
Definition inbound_allocated (w : World) : Prop :=
  forall o fr, (o, fr) ∈ inbound w ->
    exists id, fr = Owned id /\ (id < length (buffers w))%nat.

(** How the world changes while the program runs: buffers are only added and
    never written again, objects are only added, and each object changes as
    [obj_evolves] says, a new one from its construction on. *)
Definition evolves (w w' : World) : Prop :=
  buffers w `prefix_of` buffers w' /\
  (length (heap w) <= length (heap w'))%nat /\
  (forall o v, heap w !! o = Some v ->
     exists v', heap w' !! o = Some v' /\
                obj_evolves (length (buffers w)) v v') /\
  (forall o v', heap w' !! o = Some v' -> (length (heap w) <= o)%nat ->
     obj_evolves (length (buffers w)) VirtualTapInterface_new v') /\
  (registry_closed w -> registry_closed w') /\
  (inbound_allocated w -> inbound_allocated w').

(** The statement of the specification on cancellation, read on the model:
    once the frame source of a registered interface was acquired and has been
    given up again, a frame delivered for it leaves the interface as it
    was. *)
Definition dropped_after_discard : Prop :=
  forall (e : E) (m : Memory) (evs : list Event) (h : TapInterfaceHandle)
         (this : ObjRef) (v : VirtualTapInterface) (frame : Uint8Array),
    let w := run (init e m) evs in
    Map_get (interfaces w) h = Some this ->
    heap w !! this = Some v ->
    isListening v = true ->
    locked (readable v) = false ->
    heap (receive_frame_resume w h frame) !! this = Some v.

End Bindings.

Arguments World : clear implicits.
Arguments Event : clear implicits.
Arguments engine_call : simpl never.
Arguments copyToMemory : simpl never.
Arguments sendFrame : simpl never.
Arguments sink_write : simpl never.
Arguments WritableStream_write : simpl never.
Arguments create : simpl never.
Arguments receive_frame : simpl never.
Arguments receive_frame_resume : simpl never.
Arguments register_tap_interface : simpl never.

End Tap.

(** ** A small engine to run the bindings on *)

Module Demo.
Import Tap.

(** An engine that allocates upwards from address 4096, registers handle 7
    when asked to create an interface whose MAC address does not start with
    a zero byte (and answers 9 without registering it otherwise), and
    answers a send with the frame's first byte as status code. *)
#[export] Instance demo_engine : TapExports nat := {|
  malloc := fun e n => ((e + n)%nat, 4096 + Z.of_nat e);
  free := fun e _ => e;
  create_tap_interface := fun e mem macPtr _ _ =>
    if decide (mem macPtr = 0) then mkEngineRun e [] 9
    else mkEngineRun e [CallRegisterTapInterface 7] 7;
  remove_tap_interface := fun e _ _ => mkEngineRun e [] tt;
  send_tap_interface := fun e mem _ framePtr _ => mkEngineRun e [] (mem framePtr);
|}.

#[export] Instance demo_imported : Imported := {|
  ERR_OK := 0;
  serializeMacAddress := fun s =>
    if decide (s = "bad"%string) then Err MalformedInput
    else if decide (s = "00:00:00:00:00:00"%string) then Ok [0; 0; 0; 0; 0; 0]
    else Ok [2; 0; 0; 0; 0; 1];
  generateMacAddress := fun n => [2; 0; 0; 0; 0; Z.of_nat n];
  serializeIPv4Cidr := fun _ => Ok ([10; 0; 0; 1], [255; 255; 255; 0]);
|}.

Definition memory0 : Memory := fun a => a `mod` 256.

Definition world0 : World nat := init 0%nat memory0.

(** The engine registers handle 7 on its own account. *)
Definition register7 : Event nat :=
  EvEngine (mkEngineRun 0%nat [CallRegisterTapInterface 7] tt).

Definition registered : World nat := run world0 [register7].

(** The engine delivers the three bytes at address 16 to handle 7 and the
    continuation runs. *)
Definition delivery : list (Event nat) :=
  [EvEngine (mkEngineRun 0%nat [CallReceiveFrame 7 16 3] tt); EvMicrotask].

(** A frame arrives before anybody listens; then a reader is acquired,
    another frame arrives and is read. *)
Definition unheard : list (Event nat) := register7 :: delivery.
Definition heard : list (Event nat) := EvGetReader 0 :: delivery ++ [EvRead 0].

(** A reader is acquired and released again. *)
Definition released : list (Event nat) :=
  [register7; EvGetReader 0; EvReleaseLock 0].

(** The object at [this], which the runs below all have. *)
Definition object (w : World nat) (this : ObjRef) : VirtualTapInterface :=
  default VirtualTapInterface_new (heap w !! this).

End Demo.

(** ** Address accessors and the structure of runs *)

Module TapRuns.
Import Tap.

(** *** The address accessors *)

(** The exports the address hooks of [register_tap_interface] call. *)
Class AddressExports (E : Type) : Type := {
  get_interface_mac_address :
    E -> Memory -> TapInterfaceHandle -> EngineRun E Pointer;
  get_interface_ip4_address :
    E -> Memory -> TapInterfaceHandle -> EngineRun E Pointer;
  get_interface_ip4_netmask :
    E -> Memory -> TapInterfaceHandle -> EngineRun E Pointer;
}.

(** The parsers of [@tcpip/wire], which is not available. *)
Class AddressCodec : Type := {
  parseMacAddress : list Z -> result string;
  parseIPv4Address : list Z -> result string;
}.

(** Modelled from the spec: [viewFromMemory] of [base.ts], not available: "a
    read-only, short-lived, non-owning view" of the engine's memory. *)
Definition viewFromMemory (ptr : Pointer) (len : nat) : Uint8Array :=
  MemoryView ptr len.

Section Accessors.
Context {E : Type} `{!TapExports E} `{!Imported}.
Context `{!AddressExports E} `{!AddressCodec}.

(** The outer hook [getMacAddress()] of the interface registered under
    [h]. *)
Definition getMacAddress (w : World E) (h : TapInterfaceHandle)
  : World E * result string :=
  let '(w, macPtr) :=
    engine_call w (get_interface_mac_address (engine w) (memory w) h) in
  let macBytes := viewFromMemory macPtr 6 in
  (w, parseMacAddress (contents w macBytes)).

(** The outer hook [getIPv4Address()]: [undefined] on a null pointer. *)
Definition getIPv4Address (w : World E) (h : TapInterfaceHandle)
  : World E * result (option string) :=
  let '(w, ipPtr) :=
    engine_call w (get_interface_ip4_address (engine w) (memory w) h) in
  if decide (ipPtr = 0) then (w, Ok None)
  else
    let ipBytes := viewFromMemory ipPtr 4 in
    match parseIPv4Address (contents w ipBytes) with
    | Ok address => (w, Ok (Some address))
    | Err e => (w, Err e)
    end.

(** The outer hook [getIPv4Netmask()]. *)
Definition getIPv4Netmask (w : World E) (h : TapInterfaceHandle)
  : World E * result (option string) :=
  let '(w, netmaskPtr) :=
    engine_call w (get_interface_ip4_netmask (engine w) (memory w) h) in
  if decide (netmaskPtr = 0) then (w, Ok None)
  else
    let netmaskBytes := viewFromMemory netmaskPtr 4 in
    match parseIPv4Address (contents w netmaskBytes) with
    | Ok address => (w, Ok (Some address))
    | Err e => (w, Err e)
    end.

(** The getters [mac], [ip] and [netmask] of [VirtualTapInterface]. *)
Definition VirtualTapInterface_mac (w : World E) (this : ObjRef)
  : World E * result string :=
  match getOuter w this with
  | Ok hooks => getMacAddress w (handle hooks)
  | Err e => (w, Err e)
  end.

Definition VirtualTapInterface_ip (w : World E) (this : ObjRef)
  : World E * result (option string) :=
  match getOuter w this with
  | Ok hooks => getIPv4Address w (handle hooks)
  | Err e => (w, Err e)
  end.

Definition VirtualTapInterface_netmask (w : World E) (this : ObjRef)
  : World E * result (option string) :=
  match getOuter w this with
  | Ok hooks => getIPv4Netmask w (handle hooks)
  | Err e => (w, Err e)
  end.

End Accessors.

Arguments getMacAddress : simpl never.
Arguments getIPv4Address : simpl never.
Arguments getIPv4Netmask : simpl never.

(** *** Runs, one state change at a time *)

Section Atomic.
Context {E : Type} `{!TapExports E} `{!Imported}.

(** The methods a consumer calls on an interface's frame source. *)
Inductive consumer_method : (VirtualTapInterface -> VirtualTapInterface) -> Prop :=
| method_getReader : consumer_method (fun o => (getReader readable_source o).1)
| method_listen : consumer_method (fun o => (listen o).1)
| method_read : consumer_method (on_readable reader_read)
| method_releaseLock : consumer_method (on_readable reader_releaseLock)
| method_cancel : consumer_method (on_readable stream_cancel).

(** The state changes the jobs of the event loop are made of: a change that
    leaves buffers, objects, registry, microtasks and hook calls alone; the
    allocation of a consumer's array; [receive_frame] up to its suspension;
    the removal of the first microtask; [register_tap_interface]; the
    delivery of a frame to the interface a handle resolves to; a consumer's
    method; and the deletion of a handle from the registry. *)
Inductive atomic : World E -> World E -> Prop :=
| atomic_env (w w' : World E) :
    buffers w' = buffers w -> heap w' = heap w ->
    interfaces w' = interfaces w -> microtasks w' = microtasks w ->
    inbound w' = inbound w ->
    atomic w w'
| atomic_allocate (w : World E) (bytes : list Z) :
    atomic w (allocate w bytes).1
| atomic_receive (w : World E) (h : TapInterfaceHandle) (framePtr : Pointer)
    (len : nat) :
    atomic w (receive_frame w h framePtr len)
| atomic_pop (w : World E) (k : Microtask) (rest : list Microtask) :
    microtasks w = k :: rest -> atomic w (set_microtasks rest w)
| atomic_register (w : World E) (h : TapInterfaceHandle) :
    atomic w (register_tap_interface w h)
| atomic_deliver (w : World E) (h : TapInterfaceHandle) (this : ObjRef)
    (frame : Uint8Array) :
    Map_get (interfaces w) h = Some this ->
    atomic w
      (call_receiveFrame (Uint8Array_from w frame).1 this
         (Owned (length (buffers w))))
| atomic_method (w : World E) (this : ObjRef)
    (f : VirtualTapInterface -> VirtualTapInterface) :
    consumer_method f -> atomic w (method w this f)
| atomic_unregister (w : World E) (h : TapInterfaceHandle) :
    atomic w (set_interfaces (Map_delete (interfaces w) h) w).

(** The frames handed to the inner hook of [this], oldest first. *)
Definition frames_for (this : ObjRef) (calls : list (ObjRef * Uint8Array))
  : list Uint8Array :=
  (filter (fun call => call.1 = this) calls).*2.

(** The frames the pending continuations of [receive_frame] hold. *)
Definition pending_frames (w : World E) : list Uint8Array :=
  (fun k => match k with ResumeReceiveFrame _ frame => frame end)
    <$> microtasks w.

(** The handles the pending continuations of [receive_frame] hold. *)
Definition pending_handles (w : World E) : list TapInterfaceHandle :=
  (fun k => match k with ResumeReceiveFrame h _ => h end) <$> microtasks w.

(** The handles of the engine's calls of [receive_frame], in order. *)
Definition received_handles (actions : list EngineAction)
  : list TapInterfaceHandle :=
  omap (fun a => match a with
                 | CallReceiveFrame h _ _ => Some h
                 | _ => None
                 end) actions.

(** A stream's bookkeeping: read requests wait only on a locked stream whose
    queue is empty, and a closed stream has neither queue nor requests. *)
Definition stream_ok (s : ReadableStream) : Prop :=
  (readRequests s <> 0%nat -> queue s = [] /\ locked s = true) /\
  (closed s = true -> queue s = [] /\ readRequests s = 0%nat).

(** Streams are in order, and what an interface shows its consumer is, in
    order, among the frames its hook was handed. *)
Definition chunks_in_order (w : World E) : Prop :=
  forall this v, heap w !! this = Some v ->
    stream_ok (readable v) /\
    observable v `sublist_of` frames_for this (inbound w).

(** Every array handed to a hook or held by a continuation owns a buffer
    that is allocated, and no two of them are the same array. *)
Definition frames_distinct (w : World E) : Prop :=
  (forall fr, fr ∈ (inbound w).*2 ++ pending_frames w ->
     exists id, fr = Owned id /\ (id < length (buffers w))%nat) /\
  NoDup ((inbound w).*2 ++ pending_frames w).

(** The registry is injective both ways, and each of its entries names an
    object of the heap whose outer hooks hold the entry's handle; every
    object has outer hooks. *)
Definition registry_consistent (w : World E) : Prop :=
  NoDup (interfaces w).*1 /\
  NoDup (interfaces w).*2 /\
  (forall h this, (h, this) ∈ interfaces w ->
     exists v, heap w !! this = Some v /\
               outerHooks v = Some (mkOuterHooks h)) /\
  (forall this v, heap w !! this = Some v -> is_Some (outerHooks v)).

End Atomic.

(** *** Addresses for the demonstration engine *)

(** The MAC address of every handle is at address 64; handle 7 has its IPv4
    address at 128, no other handle has one, and no handle has a netmask. *)
#[export] Instance demo_addresses : AddressExports nat := {|
  get_interface_mac_address := fun e _ _ => mkEngineRun e [] 64;
  get_interface_ip4_address := fun e _ h =>
    mkEngineRun e [] (if decide (h = 7) then 128 else 0);
  get_interface_ip4_netmask := fun e _ _ => mkEngineRun e [] 0;
|}.

(** Parsers that only check the length. *)
#[export] Instance demo_codec : AddressCodec := {|
  parseMacAddress := fun bytes =>
    if decide (length bytes = 6%nat) then Ok "02:00:00:00:00:01"%string
    else Err MalformedInput;
  parseIPv4Address := fun bytes =>
    if decide (length bytes = 4%nat) then Ok "10.0.0.1"%string
    else Err MalformedInput;
|}.

(** A reader is acquired, and two frames arrive. *)
Definition listening : list (Event nat) := [Demo.register7; EvGetReader 0].
Definition two_frames : list (Event nat) := Demo.delivery ++ Demo.delivery.

(** A reader is acquired and the stream is cancelled. *)
Definition cancelled : list (Event nat) :=
  [Demo.register7; EvGetReader 0; EvCancel 0].

End TapRuns.

(** ** Properties of the wire codec *)

Module WireFacts.
Import Wire.

Lemma scan_bits_zeros (z n : nat) :
  scan_bits (repeat false z) true n = Ok n.
Proof. induction z as [|z IH]; simpl; auto. Qed.

Lemma scan_bits_pattern (k z n : nat) :
  scan_bits (ones_then_zeros k z) false n = Ok (n + k)%nat.
Proof.
  unfold ones_then_zeros. revert n.
  induction k as [|k IH]; intros n; simpl.
  - replace (n + 0)%nat with n by lia.
    destruct z as [|z]; simpl; [reflexivity | apply scan_bits_zeros].
  - rewrite IH. f_equal. lia.
Qed.

Lemma scan_bits_after_zero (bits : list bool) (n m : nat) :
  scan_bits bits true n = Ok m ->
  m = n /\ bits = repeat false (length bits).
Proof.
  induction bits as [|[] bits IH]; simpl; intros H.
  - inversion H. auto.
  - discriminate.
  - destruct (IH H) as [-> Hb]. split; [reflexivity | congruence].
Qed.

Lemma scan_bits_ok_inv (bits : list bool) (n m : nat) :
  scan_bits bits false n = Ok m ->
  exists k : nat, m = (n + k)%nat /\ (k <= length bits)%nat /\
                  bits = ones_then_zeros k (length bits - k).
Proof.
  revert n. induction bits as [|[] bits IH]; simpl; intros n H.
  - exists 0%nat. inversion H. split; [lia | split; [lia | reflexivity]].
  - destruct (IH _ H) as (k & -> & Hk & Hb).
    exists (S k). split; [lia | split; [lia |]].
    unfold ones_then_zeros in *. simpl. congruence.
  - apply scan_bits_after_zero in H as [-> Hb].
    exists 0%nat. split; [lia | split; [lia |]].
    unfold ones_then_zeros. simpl. congruence.
Qed.

Lemma scan_bits_only_error (bits : list bool) (fz : bool) (n : nat) (e : Error) :
  scan_bits bits fz n = Err e -> e = NonContiguousBits.
Proof.
  revert fz n. induction bits as [|[] bits IH]; simpl; intros fz n H.
  - discriminate.
  - destruct fz; [congruence | eauto].
  - eauto.
Qed.

Lemma pattern_lookup (k z i : nat) (b : bool) :
  ones_then_zeros k z !! i = Some b -> b = bool_decide (i < k)%nat.
Proof.
  unfold ones_then_zeros. intros H.
  destruct (decide (i < k)%nat) as [Hlt|Hge].
  - rewrite lookup_app_l in H by (rewrite repeat_length; lia).
    rewrite bool_decide_eq_true_2 by done.
    apply list_elem_of_lookup_2, list_elem_of_In, repeat_spec in H. done.
  - rewrite lookup_app_r in H by (rewrite repeat_length; lia).
    rewrite bool_decide_eq_false_2 by done.
    apply list_elem_of_lookup_2, list_elem_of_In, repeat_spec in H. done.
Qed.

Lemma pattern_no_zero_before_one (k z : nat) :
  ~ zero_before_one (ones_then_zeros k z).
Proof.
  intros (i & j & Hij & Hi & Hj).
  apply pattern_lookup in Hi, Hj.
  symmetry in Hi, Hj.
  apply bool_decide_eq_false in Hi. apply bool_decide_eq_true in Hj. lia.
Qed.

Lemma netmask_bits_length (netmask : list Z) :
  length (netmask_bits netmask) = (8 * length netmask)%nat.
Proof.
  unfold netmask_bits. induction netmask as [|b bs IH]; simpl; [reflexivity|].
  rewrite IH. lia.
Qed.

(** The scan either counts the ones of a pattern [1^k 0^z] or fails. *)
Lemma getPrefixLength_cases (netmask : list Z) :
  (exists k : nat, (k <= 8 * length netmask)%nat /\
     netmask_bits netmask = ones_then_zeros k (8 * length netmask - k) /\
     getPrefixLength netmask = Ok k) \/
  getPrefixLength netmask = Err NonContiguousBits.
Proof.
  unfold getPrefixLength.
  destruct (scan_bits (netmask_bits netmask) false 0) as [m|e] eqn:Hscan.
  - left. apply scan_bits_ok_inv in Hscan as (k & -> & Hk & Hb).
    rewrite netmask_bits_length in Hk, Hb. exists k. auto.
  - right. f_equal. eapply scan_bits_only_error, Hscan.
Qed.

(** The bytes of [2^32 - 2^(32-k)] show the pattern [1^k 0^(32-k)]. *)
Lemma prefix_netmask_bits (k : nat) :
  (k <= 32)%nat ->
  netmask_bits (prefix_netmask k) = ones_then_zeros k (32 - k).
Proof.
  intros Hk.
  do 33 (destruct k as [|k]; [vm_compute; reflexivity|]). lia.
Qed.

(** The cases of [ipv4.test.ts]. *)
Example getPrefixLength_tests :
  getPrefixLength [0; 0; 0; 0] = Ok 0%nat /\
  getPrefixLength [255; 0; 0; 0] = Ok 8%nat /\
  getPrefixLength [255; 255; 0; 0] = Ok 16%nat /\
  getPrefixLength [255; 255; 255; 0] = Ok 24%nat /\
  getPrefixLength [255; 255; 255; 255] = Ok 32%nat /\
  getPrefixLength [128; 0; 0; 0] = Ok 1%nat /\
  getPrefixLength [254; 0; 0; 0] = Ok 7%nat /\
  getPrefixLength [255; 248; 0; 0] = Ok 13%nat /\
  getPrefixLength [255; 255; 224; 0] = Ok 19%nat /\
  getPrefixLength [255; 255; 255; 128] = Ok 25%nat /\
  getPrefixLength [255; 255; 255; 252] = Ok 30%nat /\
  getPrefixLength [255; 0; 255; 0] = Err NonContiguousBits /\
  getPrefixLength [255; 254; 0; 1] = Err NonContiguousBits /\
  getPrefixLength [255; 255; 254; 255] = Err NonContiguousBits.
Proof. vm_compute. repeat split. Qed.

(** C9: on a 4-byte netmask whose bits, most significant first, are
    [1^k 0^(32-k)] with [k <= 32], [getPrefixLength] returns [k]; on a 4-byte
    input whose bits are not of that form for any [k], and in particular
    whenever some zero bit precedes a one bit, it fails with
    [NonContiguousBits]. *)
Theorem getPrefixLength_spec (netmask : list Z) :
  length netmask = 4%nat ->
  (forall k : nat, (k <= 32)%nat ->
     netmask_bits netmask = ones_then_zeros k (32 - k) ->
     getPrefixLength netmask = Ok k) /\
  ((forall k : nat, (k <= 32)%nat ->
      netmask_bits netmask <> ones_then_zeros k (32 - k)) ->
   getPrefixLength netmask = Err NonContiguousBits) /\
  (zero_before_one (netmask_bits netmask) ->
   getPrefixLength netmask = Err NonContiguousBits).
Proof.
  intros Hlen. split; [|split].
  - intros k Hk Hbits. unfold getPrefixLength.
    rewrite Hbits. apply scan_bits_pattern.
  - intros Hnot.
    destruct (getPrefixLength_cases netmask) as [(k & Hk & Hbits & _)|Herr];
      [|exact Herr].
    rewrite Hlen in Hk, Hbits. destruct (Hnot k Hk Hbits).
  - intros Hzo.
    destruct (getPrefixLength_cases netmask) as [(k & Hk & Hbits & _)|Herr];
      [|exact Herr].
    rewrite Hbits in Hzo. destruct (pattern_no_zero_before_one _ _ Hzo).
Qed.

Lemma getPrefixLength_spec_witness :
  getPrefixLength [255; 255; 255; 0] = Ok 24%nat /\
  getPrefixLength [255; 0; 255; 0] = Err NonContiguousBits.
Proof.
  split.
  - apply (proj1 (getPrefixLength_spec [255; 255; 255; 0] eq_refl) 24%nat);
      [lia | reflexivity].
  - apply (proj2 (proj2 (getPrefixLength_spec [255; 0; 255; 0] eq_refl))).
    exists 8%nat, 16%nat. split; [lia | split; reflexivity].
Defined.

End WireFacts.

(** ** Properties of the tap bindings *)

Module TapFacts.
Import Tap.

Local Open Scope nat_scope.

(** *** The JavaScript [Map] *)

Section JsMapFacts.
Context {V : Type}.
Implicit Types (m : list (Z * V)) (k : Z) (v : V).

Lemma Map_get_elem_of m k v : Map_get m k = Some v -> (k, v) ∈ m.
Proof.
  induction m as [|[k' v'] m IH]; simpl; [discriminate|].
  destruct (decide (k' = k)) as [->|Hne]; intros H.
  - inversion H; subst. left.
  - right. auto.
Qed.

Lemma Map_get_None m k : Map_get m k = None <-> forall v, (k, v) ∉ m.
Proof.
  induction m as [|[k' v'] m IH]; simpl.
  - split; [intros _ v Hin; inversion Hin | reflexivity].
  - destruct (decide (k' = k)) as [->|Hne].
    + split; [discriminate|]. intros Hall. destruct (Hall v'). left.
    + rewrite IH. split; intros Hall v Hin.
      * apply elem_of_cons in Hin as [Heq|Hin]; [congruence|].
        exact (Hall v Hin).
      * apply (Hall v). right. exact Hin.
Qed.

Lemma Map_set_elem_of m k v k' v' :
  (k', v') ∈ Map_set m k v -> (k', v') ∈ m \/ (k', v') = (k, v).
Proof.
  induction m as [|[k0 v0] m IH]; simpl.
  - intros Hin. apply list_elem_of_singleton in Hin. auto.
  - destruct (decide (k0 = k)) as [->|Hne]; intros Hin;
      apply elem_of_cons in Hin as [Heq|Hin]; auto.
    + left. right. exact Hin.
    + left. rewrite Heq. left.
    + destruct (IH Hin) as [Hm|Hnew]; [left; right; exact Hm | auto].
Qed.

Lemma Map_get_set m k v k' :
  Map_get (Map_set m k v) k' = if decide (k = k') then Some v else Map_get m k'.
Proof.
  induction m as [|[k0 v0] m IH]; simpl.
  - destruct (decide (k = k')); reflexivity.
  - destruct (decide (k0 = k)) as [->|Hne]; simpl.
    + destruct (decide (k = k')); reflexivity.
    + destruct (decide (k0 = k')) as [->|Hne'].
      * destruct (decide (k = k')); [congruence | reflexivity].
      * exact IH.
Qed.

Lemma Map_delete_elem_of m k k' v' :
  (k', v') ∈ Map_delete m k <-> (k', v') ∈ m /\ k' <> k.
Proof.
  unfold Map_delete. rewrite list_elem_of_filter. simpl. tauto.
Qed.

Lemma Map_get_delete m k : Map_get (Map_delete m k) k = None.
Proof.
  apply Map_get_None. intros v Hin.
  apply Map_delete_elem_of in Hin as [_ Hne]. congruence.
Qed.

End JsMapFacts.

(** *** One object *)

Lemma obj_evolves_refl (n : nat) (v : VirtualTapInterface) : obj_evolves n v v.
Proof. unfold obj_evolves. intuition. Qed.

Lemma obj_evolves_mono (n n' : nat) (v v' : VirtualTapInterface) :
  n <= n' -> obj_evolves n' v v' -> obj_evolves n v v'.
Proof.
  intros Hn (Hl & Hc & He & Hk & Hf). repeat split; auto.
  intros fr Hfr. destruct (Hf fr Hfr) as [Hold|(Hlis & id & -> & Hid)]; auto.
  right. split; [done|]. exists id. split; [done | lia].
Qed.

Lemma obj_evolves_trans (n n' : nat) (v v' v'' : VirtualTapInterface) :
  n <= n' -> obj_evolves n v v' -> obj_evolves n' v' v'' -> obj_evolves n v v''.
Proof.
  intros Hn (Hl & Hc & He & Hk & Hf) (Hl' & Hc' & He' & Hk' & Hf').
  repeat split; auto.
  intros fr Hfr. destruct (Hf' fr Hfr) as [Hold|(Hlis & id & -> & Hid)].
  - destruct (Hf fr Hold) as [Hold'|(Hlis & id & -> & Hid)]; auto.
    right. split; [auto|]. exists id. auto.
  - right. split; [done|]. exists id. split; [done | lia].
Qed.

(** The transitions of one object. *)

Ltac mem_solver :=
  repeat match goal with
         | H : _ ∈ _ |- _ =>
             progress rewrite ?elem_of_app, ?elem_of_cons, ?elem_of_nil in H
         end;
  rewrite ?elem_of_app, ?elem_of_cons, ?elem_of_nil; tauto.

Ltac obj_crush :=
  unfold obj_evolves, observable; simpl; repeat split; simpl; auto;
  try congruence;
  try (intros ? ?; left;
       repeat match goal with H : queue _ = _ |- _ => rewrite H; clear H end;
       mem_solver).

Lemma getReader_evolves (n : nat) (v : VirtualTapInterface) :
  obj_evolves n v (getReader readable_source v).1.
Proof.
  unfold getReader, acquire_reader.
  destruct (locked (readable v)) eqn:Hlocked; simpl;
    [apply obj_evolves_refl | obj_crush].
Qed.

Lemma listen_evolves (n : nat) (v : VirtualTapInterface) :
  obj_evolves n v (listen v).1.
Proof.
  unfold listen, fromReadable.
  destruct (locked (readable v)); [apply obj_evolves_refl|].
  apply getReader_evolves.
Qed.

Lemma reader_read_evolves (n : nat) (v : VirtualTapInterface) :
  obj_evolves n v (on_readable reader_read v).
Proof.
  unfold on_readable, reader_read.
  destruct (locked (readable v)) eqn:Hlocked; simpl; [|obj_crush].
  destruct (queue (readable v)) as [|chunk rest] eqn:Hq; simpl.
  - destruct (closed (readable v)); obj_crush.
  - obj_crush.
Qed.

Lemma reader_releaseLock_evolves (n : nat) (v : VirtualTapInterface) :
  obj_evolves n v (on_readable reader_releaseLock v).
Proof. unfold on_readable, reader_releaseLock. obj_crush. Qed.

Lemma stream_cancel_evolves (n : nat) (v : VirtualTapInterface) :
  obj_evolves n v (on_readable stream_cancel v).
Proof. unfold on_readable, stream_cancel. obj_crush. Qed.

Lemma receiveFrame_evolves (n id : nat) (v : VirtualTapInterface) :
  n <= id -> obj_evolves n v (receiveFrame v (Owned id)).1.
Proof.
  intros Hid. unfold receiveFrame.
  destruct (isListening v) eqn:Hlis; simpl; [|apply obj_evolves_refl].
  destruct (readableController v) as [c|]; simpl; [|apply obj_evolves_refl].
  unfold controller_enqueue.
  destruct (closed (readable v)); simpl; [apply obj_evolves_refl|].
  destruct (locked (readable v) && negb (readRequests (readable v) =? 0));
    unfold obj_evolves, observable; simpl; repeat split; simpl; auto;
    intros fr Hfr;
    (assert (Hcase : fr ∈ delivered (readable v) ++ queue (readable v)
                     \/ fr = Owned id) by mem_solver);
    destruct Hcase as [Hold| ->]; auto; right; split; auto; exists id; auto.
Qed.

Lemma setOuter_evolves (n : nat) (v : VirtualTapInterface)
  (hooks : TapInterfaceOuterHooks) : obj_evolves n v (setOuter v hooks).
Proof. unfold setOuter. obj_crush. Qed.

(** The constructor stores the controller and leaves the stream unlocked,
    empty and not listened to. *)
Lemma VirtualTapInterface_new_fields :
  VirtualTapInterface_new =
  mkVirtualTapInterface (Some DefaultController) false ReadableStream_new
    WritableStream_new None.
Proof. reflexivity. Qed.


(** *** The world *)

Section WorldFacts.
Context {E : Type} `{!TapExports E} `{!Imported}.
Implicit Types (w : World E) (o : ObjRef) (h : TapInterfaceHandle).

Lemma evolves_refl w : evolves w w.
Proof.
  unfold evolves; split_and!; auto.
  - intros o v Hv. exists v. split; [done | apply obj_evolves_refl].
  - intros o v' Hv' Hge. apply lookup_lt_Some in Hv'. lia.
Qed.

Lemma evolves_trans w w' w'' : evolves w w' -> evolves w' w'' -> evolves w w''.
Proof.
  intros (Hb & Hh & Hold & Hnew & Hr & Hi) (Hb' & Hh' & Hold' & Hnew' & Hr' & Hi').
  pose proof (prefix_length _ _ Hb) as Hn.
  unfold evolves; split_and!; auto.
  - by etrans.
  - lia.
  - intros o v Hv. destruct (Hold o v Hv) as (v' & Hv' & Hvv').
    destruct (Hold' o v' Hv') as (v'' & Hv'' & Hvv'').
    exists v''. split; [done|]. eapply obj_evolves_trans; eauto.
  - intros o v'' Hv'' Hge.
    destruct (decide (o < length (heap w'))) as [Hlt|Hnlt].
    + apply lookup_lt_is_Some_2 in Hlt as [v' Hv'].
      destruct (Hold' o v' Hv') as (v2 & Hv2 & Hvv'').
      assert (v2 = v'') as -> by congruence.
      eapply obj_evolves_trans; eauto.
    + eapply obj_evolves_mono; [exact Hn|]. apply (Hnew' o); [done | lia].
Qed.

#[local] Instance evolves_preorder : PreOrder (evolves (E:=E)).
Proof.
  split; [intros w; apply evolves_refl | intros w1 w2 w3; apply evolves_trans].
Qed.

(** A change that keeps the length of the heap and changes its objects as
    [obj_evolves] allows. *)
Lemma evolves_pointwise w w' :
  buffers w `prefix_of` buffers w' ->
  length (heap w') = length (heap w) ->
  (forall o v, heap w !! o = Some v ->
     exists v', heap w' !! o = Some v' /\
                obj_evolves (length (buffers w)) v v') ->
  (forall x, x ∈ interfaces w' -> x ∈ interfaces w) ->
  (inbound_allocated w -> inbound_allocated w') ->
  evolves w w'.
Proof.
  intros Hb Hlen Hold Hsub Hin. unfold evolves; split_and!; auto.
  - lia.
  - intros o v' Hv' Hge. apply lookup_lt_Some in Hv'. lia.
  - intros Hrc h o Hho. rewrite Hlen. eapply Hrc, Hsub, Hho.
Qed.

Lemma inbound_allocated_mono w w' :
  inbound w' = inbound w -> buffers w `prefix_of` buffers w' ->
  inbound_allocated w -> inbound_allocated w'.
Proof.
  intros Heq Hb Hin o fr Hfr. rewrite Heq in Hfr.
  destruct (Hin o fr Hfr) as (id & -> & Hid).
  apply prefix_length in Hb. exists id. split; [done | lia].
Qed.

(** A change to the engine, the memory, the microtask queue, the console,
    the rejections or the draws. *)
Lemma evolves_frame w w' :
  buffers w' = buffers w -> heap w' = heap w ->
  interfaces w' = interfaces w -> inbound w' = inbound w ->
  evolves w w'.
Proof.
  intros Hb Hh Hi Hin. apply evolves_pointwise.
  - by rewrite Hb.
  - by rewrite Hh.
  - intros o v Hv. exists v. rewrite Hh. split; [done | apply obj_evolves_refl].
  - intros x. by rewrite Hi.
  - apply inbound_allocated_mono; [done | by rewrite Hb].
Qed.

Lemma evolves_allocate w bytes : evolves w (allocate w bytes).1.
Proof.
  apply evolves_pointwise; simpl; auto.
  - by apply prefix_app_r.
  - intros o v Hv. exists v. split; [done | apply obj_evolves_refl].
  - apply inbound_allocated_mono; [done | by apply prefix_app_r].
Qed.

Lemma evolves_method w o (f : VirtualTapInterface -> VirtualTapInterface) :
  (forall v, obj_evolves (length (buffers w)) v (f v)) ->
  evolves w (method w o f).
Proof.
  intros Hf. apply evolves_pointwise; simpl; auto.
  - apply length_alter.
  - intros o' v Hv. destruct (decide (o = o')) as [->|Hne].
    + exists (f v). split; [by rewrite list_lookup_alter_eq, Hv | auto].
    + exists v. split; [by rewrite list_lookup_alter_ne | ].
      apply obj_evolves_refl.
Qed.

Lemma evolves_register w h : evolves w (register_tap_interface w h).
Proof.
  unfold register_tap_interface, evolves. split_and!; simpl; auto.
  - rewrite length_app. lia.
  - intros o v Hv. exists v. split; [|apply obj_evolves_refl].
    by apply lookup_app_l_Some.
  - intros o v' Hv' Hge.
    apply lookup_app_Some in Hv' as [Hv'|[_ Hv']];
      [apply lookup_lt_Some in Hv'; lia|].
    apply list_elem_of_lookup_2, list_elem_of_singleton in Hv' as ->.
    apply setOuter_evolves.
  - intros Hrc h' o Hho. simpl in Hho. simpl. rewrite length_app. simpl.
    apply Map_set_elem_of in Hho as [Hold|Heq].
    + apply Hrc in Hold. lia.
    + inversion Heq; subst. lia.
Qed.

Lemma evolves_receive_frame w h (framePtr : Pointer) (len : nat) :
  evolves w (receive_frame w h framePtr len).
Proof.
  unfold receive_frame, copyFromMemory.
  eapply evolves_trans; [apply (evolves_allocate w)|].
  by apply evolves_frame.
Qed.

Lemma evolves_receive_frame_resume w h (frame : Uint8Array) :
  evolves w (receive_frame_resume w h frame).
Proof.
  unfold receive_frame_resume.
  destruct (Map_get (interfaces w) h) as [o|]; [|by apply evolves_frame].
  unfold Uint8Array_from, call_receiveFrame. simpl.
  destruct (heap w !! o) as [this|] eqn:Hthis; [|apply evolves_allocate].
  pose proof (receiveFrame_evolves (length (buffers w)) (length (buffers w))
                this (le_n _)) as Hev.
  destruct (receiveFrame this (Owned (length (buffers w)))) as [this' r].
  simpl in Hev.
  assert (Hgoal : forall w',
    buffers w' = buffers w ++ [contents w frame] ->
    heap w' = <[o := this']> (heap w) ->
    interfaces w' = interfaces w ->
    inbound w' = inbound w ++ [(o, Owned (length (buffers w)))] ->
    evolves w w').
  { intros w' Hb Hh Hi Hin. apply evolves_pointwise.
    - rewrite Hb. by apply prefix_app_r.
    - rewrite Hh. apply length_insert.
    - intros o' v Hv. rewrite Hh. destruct (decide (o = o')) as [->|Hne].
      + exists this'. split; [|congruence].
        apply list_lookup_insert_eq. by eapply lookup_lt_Some.
      + exists v. split; [by rewrite list_lookup_insert_ne|].
        apply obj_evolves_refl.
    - intros x. by rewrite Hi.
    - intros Hall o' fr Hfr. rewrite Hin in Hfr. rewrite Hb, length_app. simpl.
      apply elem_of_app in Hfr as [Hfr|Hfr].
      + destruct (Hall o' fr Hfr) as (id & -> & Hid).
        exists id. split; [done | lia].
      + apply list_elem_of_singleton in Hfr. inversion Hfr; subst.
        eexists. split; [done | lia]. }
  destruct r; by apply Hgoal.
Qed.

Lemma evolves_do_action w (a : EngineAction) : evolves w (do_action w a).
Proof.
  destruct a as [ptr bytes|h|h framePtr len]; simpl.
  - by apply evolves_frame.
  - apply evolves_register.
  - apply evolves_receive_frame.
Qed.

Lemma evolves_actions w (actions : list EngineAction) :
  evolves w (foldl do_action w actions).
Proof.
  revert w. induction actions as [|a actions IH]; intros w; simpl.
  - apply evolves_refl.
  - eapply evolves_trans; [apply evolves_do_action | apply IH].
Qed.

Lemma evolves_engine_call {A : Type} w (r : EngineRun E A) :
  evolves w (engine_call w r).1.
Proof.
  unfold engine_call. simpl.
  eapply evolves_trans; [|apply evolves_actions]. by apply evolves_frame.
Qed.

Lemma evolves_copyToMemory w (bytes : list Z) :
  evolves w (copyToMemory w bytes).1.
Proof.
  unfold copyToMemory. destruct (malloc (engine w) (length bytes)) as [e ptr].
  by apply evolves_frame.
Qed.

Lemma evolves_dispose w (ptr : option Pointer) : evolves w (dispose w ptr).
Proof. destruct ptr; simpl; [by apply evolves_frame | apply evolves_refl]. Qed.

Lemma evolves_sendFrame w h (frame : Uint8Array) :
  evolves w (sendFrame w h frame).1.
Proof.
  unfold sendFrame.
  pose proof (evolves_copyToMemory w (contents w frame)) as H1.
  destruct (copyToMemory w (contents w frame)) as [w1 framePtr]. simpl in H1.
  match goal with
  | |- context [engine_call w1 ?r] =>
      pose proof (evolves_engine_call w1 r) as H2;
      destruct (engine_call w1 r) as [w2 code]
  end.
  simpl in H2. destruct (decide (code <> ERR_OK)); simpl; by etrans.
Qed.

(** The sink's [write] never throws. *)
Lemma sink_write_ok w o (packet : Uint8Array) : (sink_write w o packet).2 = Ok tt.
Proof.
  unfold sink_write.
  destruct (getOuter w o) as [hooks|e]; [|reflexivity].
  destruct (sendFrame w (handle hooks) packet) as [w' [[]|e]]; reflexivity.
Qed.

Lemma evolves_sink_write w o (packet : Uint8Array) :
  evolves w (sink_write w o packet).1.
Proof.
  unfold sink_write.
  destruct (getOuter w o) as [hooks|e]; [|by apply evolves_frame].
  pose proof (evolves_sendFrame w (handle hooks) packet) as H1.
  destruct (sendFrame w (handle hooks) packet) as [w' [[]|e]]; simpl in *;
    [done|].
  eapply evolves_trans; [exact H1 | by apply evolves_frame].
Qed.

Lemma evolves_WritableStream_write w o (packet : Uint8Array) :
  evolves w (WritableStream_write w o packet).1.
Proof.
  unfold WritableStream_write.
  destruct (heap w !! o) as [object|]; [|apply evolves_refl].
  destruct (errored (writable object)); [apply evolves_refl|].
  pose proof (evolves_sink_write w o packet) as H1.
  pose proof (sink_write_ok w o packet) as H2.
  destruct (sink_write w o packet) as [w' r]. simpl in *. by subst r.
Qed.

Lemma evolves_create w (options : TapInterfaceOptions) :
  evolves w (create w options).1.
Proof.
  unfold create.
  set (w0 := (match truthy (mac options) with
              | Some m => (w, serializeMacAddress m)
              | None => (set_draws (S (draws w)) w,
                         Ok (generateMacAddress (draws w)))
              end)).
  assert (H0 : evolves w w0.1).
  { subst w0. destruct (truthy (mac options)); simpl;
      [apply evolves_refl | by apply evolves_frame]. }
  destruct w0 as [w0 [macAddress|e]]; simpl in H0; [|done].
  destruct (truthy (ip options)) as [c|];
    [destruct (serializeIPv4Cidr c) as [[ipAddress netmask]|e]; [|done]|].
  - pose proof (evolves_copyToMemory w0 macAddress) as H1.
    destruct (copyToMemory w0 macAddress) as [w1 macAddressPtr].
    pose proof (evolves_copyToMemory w1 ipAddress) as H2.
    destruct (copyToMemory w1 ipAddress) as [w2 ipAddressPtr].
    pose proof (evolves_copyToMemory w2 netmask) as H3.
    destruct (copyToMemory w2 netmask) as [w3 netmaskPtr].
    match goal with
    | |- context [engine_call w3 ?r] =>
        pose proof (evolves_engine_call w3 r) as H4;
        destruct (engine_call w3 r) as [w4 h]
    end.
    simpl in *.
    assert (evolves w (dispose (dispose (dispose w4 (Some netmaskPtr))
                                  (Some ipAddressPtr)) (Some macAddressPtr))).
    { repeat (etrans; [|apply evolves_dispose]). by repeat (etrans; [eassumption|]). }
    destruct (Map_get (interfaces w4) h); done.
  - pose proof (evolves_copyToMemory w0 macAddress) as H1.
    destruct (copyToMemory w0 macAddress) as [w1 macAddressPtr].
    match goal with
    | |- context [engine_call w1 ?r] =>
        pose proof (evolves_engine_call w1 r) as H4;
        destruct (engine_call w1 r) as [w4 h]
    end.
    simpl in *.
    assert (evolves w (dispose (dispose (dispose w4 None) None)
                         (Some macAddressPtr))).
    { repeat (etrans; [|apply evolves_dispose]). by repeat (etrans; [eassumption|]). }
    destruct (Map_get (interfaces w4) h); done.
Qed.

Lemma evolves_remove_entries w
  (entries : list (TapInterfaceHandle * ObjRef)) o :
  evolves w (remove_entries w entries o).
Proof.
  induction entries as [|[h loopback] rest IH]; cbn [remove_entries];
    [apply evolves_refl|].
  destruct (decide (loopback = o)); [|exact IH].
  match goal with
  | |- context [engine_call w ?r] =>
      pose proof (evolves_engine_call w r) as H1;
      destruct (engine_call w r) as [w1 u]
  end.
  simpl in H1. etrans; [exact H1|].
  apply evolves_pointwise; simpl; auto.
  - intros o' v Hv. exists v. split; [done | apply obj_evolves_refl].
  - intros [h' o'] Hin. by apply Map_delete_elem_of in Hin as [Hin _].
Qed.

Lemma evolves_step w (ev : Event E) : evolves w (step w ev).
Proof.
  destruct ev as [options|o|r| |o|o|o|o|o|o bytes]; simpl.
  - apply evolves_create.
  - apply evolves_remove_entries.
  - apply (evolves_engine_call w r).
  - destruct (microtasks w) as [|[h frame] rest]; [apply evolves_refl|].
    etrans; [|apply evolves_receive_frame_resume]. by apply evolves_frame.
  - apply evolves_method. intros v. apply getReader_evolves.
  - apply evolves_method. intros v. apply listen_evolves.
  - apply evolves_method. intros v. apply reader_read_evolves.
  - apply evolves_method. intros v. apply reader_releaseLock_evolves.
  - apply evolves_method. intros v. apply stream_cancel_evolves.
  - etrans; [apply (evolves_allocate w bytes)|].
    apply evolves_WritableStream_write.
Qed.

Lemma evolves_run w (evs : list (Event E)) : evolves w (run w evs).
Proof.
  revert w. induction evs as [|ev evs IH]; intros w; simpl; [reflexivity|].
  etrans; [apply evolves_step | apply IH].
Qed.

(** *** Objects of a run *)

Lemma evolves_from_init (e : E) (m : Memory) (evs : list (Event E)) :
  evolves (init e m) (run (init e m) evs) /\
  registry_closed (run (init e m) evs) /\
  inbound_allocated (run (init e m) evs).
Proof.
  pose proof (evolves_run (init e m) evs) as Hev. split; [exact Hev|].
  destruct Hev as (_ & _ & _ & _ & Hr & Hi). split.
  - apply Hr. intros h o Hin. inversion Hin.
  - apply Hi. intros o fr Hin. inversion Hin.
Qed.

(** Every object of a run was constructed by [new VirtualTapInterface()] and
    has changed since as [obj_evolves] says. *)
Lemma object_of_run (e : E) (m : Memory) (evs : list (Event E)) o
  (v : VirtualTapInterface) :
  heap (run (init e m) evs) !! o = Some v ->
  obj_evolves 0 VirtualTapInterface_new v.
Proof.
  intros Hv. destruct (evolves_from_init e m evs) as [(_ & _ & _ & Hnew & _) _].
  apply (Hnew o v Hv). simpl. lia.
Qed.

Lemma constructed_object (n : nat) (v : VirtualTapInterface) :
  obj_evolves n VirtualTapInterface_new v ->
  readableController v = Some DefaultController /\
  errored (writable v) = false /\
  (locked (readable v) = true -> isListening v = true) /\
  (isListening v = false -> queue (readable v) = [] /\ delivered (readable v) = []).
Proof.
  intros (_ & Hc & He & Hk & Hf). split_and!.
  - destruct Hc as [[] Hc]; [by eexists | done].
  - by apply He.
  - apply Hk. discriminate.
  - intros Hlis.
    assert (Hnone : forall fr, fr ∉ observable v).
    { intros fr Hfr. destruct (Hf fr Hfr) as [Hold|[Htrue _]].
      - inversion Hold.
      - congruence. }
    unfold observable in Hnone.
    destruct (delivered (readable v)) as [|x l];
      [|destruct (Hnone x); left].
    destruct (queue (readable v)) as [|x l]; [done|].
    destruct (Hnone x). left.
Qed.

Lemma run_app w (evs1 evs2 : list (Event E)) :
  run w (evs1 ++ evs2) = run (run w evs1) evs2.
Proof. apply foldl_app. Qed.

(** Buffers are never written again: an array that owns one shows the same
    bytes ever after. *)
Lemma contents_stable w w' (id : nat) :
  evolves w w' -> id < length (buffers w) ->
  contents w' (Owned id) = contents w (Owned id).
Proof.
  intros (Hb & _) Hid. simpl.
  apply lookup_lt_is_Some_2 in Hid as [bytes Hbytes].
  by rewrite Hbytes, (prefix_lookup_Some _ _ _ _ Hbytes Hb).
Qed.

(** *** The claims on the virtual interface *)

(** C1: as long as the listening flag of an interface is false, the inner
    hook returns without touching the object; its queue is empty and no chunk
    was handed to a reader, at that moment and at every earlier one; and
    whatever happens afterwards, acquisition included, no frame that was
    handed to the hook before becomes observable from the frame source. *)
Theorem frames_before_listening_are_dropped
  (e : E) (m : Memory) (evs1 evs2 : list (Event E)) (this : ObjRef)
  (v1 v2 : VirtualTapInterface) :
  heap (run (init e m) evs1) !! this = Some v1 ->
  isListening v1 = false ->
  heap (run (run (init e m) evs1) evs2) !! this = Some v2 ->
  (forall frame, receiveFrame v1 frame = (v1, Ok tt)) /\
  queue (readable v1) = [] /\
  delivered (readable v1) = [] /\
  (forall evs0 v0, evs0 `prefix_of` evs1 ->
     heap (run (init e m) evs0) !! this = Some v0 ->
     isListening v0 = false /\ queue (readable v0) = []) /\
  (forall fr, (this, fr) ∈ inbound (run (init e m) evs1) -> fr ∉ observable v2).
Proof.
  intros Hv1 Hlis Hv2.
  pose proof (object_of_run _ _ _ _ _ Hv1) as Hobj.
  apply constructed_object in Hobj as (_ & _ & _ & Hempty).
  destruct (Hempty Hlis) as [Hq Hd]. split_and!; auto.
  - intros frame. unfold receiveFrame. by rewrite Hlis.
  - intros evs0 v0 [rest ->] Hv0.
    rewrite run_app in Hv1.
    destruct (evolves_run (run (init e m) evs0) rest) as (_ & _ & Hold & _).
    destruct (Hold _ _ Hv0) as (v1' & Hv1' & Hl & _).
    assert (v1' = v1) as -> by congruence.
    assert (Hlis0 : isListening v0 = false).
    { destruct (isListening v0); [|done]. rewrite Hl in Hlis; done. }
    split; [done|].
    apply object_of_run, constructed_object in Hv0 as (_ & _ & _ & Hempty0).
    by destruct (Hempty0 Hlis0).
  - intros fr Hin Hobs.
    destruct (evolves_from_init e m evs1) as (_ & _ & Halloc).
    destruct (Halloc _ _ Hin) as (id & -> & Hid).
    destruct (evolves_run (run (init e m) evs1) evs2) as (_ & _ & Hold & _).
    destruct (Hold _ _ Hv1) as (v2' & Hv2' & _ & _ & _ & _ & Hf).
    assert (v2' = v2) as -> by congruence.
    destruct (Hf _ Hobs) as [Hbefore|(_ & id' & Heq & Hid')].
    + unfold observable in Hbefore. rewrite Hq, Hd in Hbefore.
      inversion Hbefore.
    + inversion Heq; subst. lia.
Qed.

(** C10: the constructor stores the stream's controller, so every interface
    of a run has it, and the inner hook never fails with 'readable stream not
    initialized', whatever the listening flag says. *)
Theorem controller_always_initialized
  (e : E) (m : Memory) (evs : list (Event E)) (this : ObjRef)
  (v : VirtualTapInterface) :
  heap (run (init e m) evs) !! this = Some v ->
  readableController VirtualTapInterface_new = Some DefaultController /\
  readableController v = Some DefaultController /\
  (forall frame, (receiveFrame v frame).2 <> Err StreamNotInitialized).
Proof.
  intros Hv. apply object_of_run, constructed_object in Hv as (Hc & _).
  split_and!; [reflexivity | exact Hc |].
  intros frame. unfold receiveFrame. rewrite Hc.
  destruct (isListening v); simpl; [|discriminate].
  unfold controller_enqueue. destruct (closed (readable v)); simpl;
    [discriminate|].
  by destruct (locked (readable v) && negb (readRequests (readable v) =? 0)).
Qed.

(** C4: [listen()] on an interface whose stream is locked fails with
    [AlreadyListening] and changes nothing; on one whose stream is not
    locked it succeeds, locks the stream and sets the listening flag, so that
    a second [listen()] fails; and the stream of an interface of a run that
    was never acquired is not locked, so the first acquisition succeeds. *)
Theorem listen_is_exclusive (v : VirtualTapInterface) :
  (locked (readable v) = true -> listen v = (v, Err AlreadyListening)) /\
  (locked (readable v) = false ->
   exists v', listen v = (v', Ok tt) /\
              locked (readable v') = true /\ isListening v' = true /\
              listen v' = (v', Err AlreadyListening)) /\
  (forall (e : E) (m : Memory) (evs : list (Event E)) (this : ObjRef),
     heap (run (init e m) evs) !! this = Some v ->
     isListening v = false -> locked (readable v) = false).
Proof.
  split_and!.
  - intros Hlocked. unfold listen. by rewrite Hlocked.
  - intros Hfree. unfold listen, fromReadable, getReader, acquire_reader.
    rewrite Hfree. simpl. eexists. split; [reflexivity|]. by simpl.
  - intros e m evs this Hv Hlis.
    apply object_of_run, constructed_object in Hv as (_ & _ & Hk & _).
    destruct (locked (readable v)); [|done]. rewrite Hk in Hlis; done.
Qed.

(** *** The claims on the binding core *)

(** C8: when the handle of a deferred frame has no interface in the registry,
    the continuation only writes the console: no promise is rejected, and the
    registry, the objects, the buffers and the microtask queue stay as they
    were. *)
Theorem unknown_handle_is_logged w h (frame : Uint8Array) :
  Map_get (interfaces w) h = None ->
  let w' := receive_frame_resume w h frame in
  console w' = console w ++ [UnknownTapInterface] /\
  rejections w' = rejections w /\
  interfaces w' = interfaces w /\
  heap w' = heap w /\
  inbound w' = inbound w /\
  buffers w' = buffers w /\
  microtasks w' = microtasks w.
Proof.
  intros Hnone. unfold receive_frame_resume. rewrite Hnone. simpl. tauto.
Qed.

Lemma remove_entries_absent w
  (entries : list (TapInterfaceHandle * ObjRef)) o :
  (forall h, (h, o) ∉ entries) -> remove_entries w entries o = w.
Proof.
  induction entries as [|[h o'] rest IH]; intros Hnone; cbn [remove_entries];
    [done|].
  destruct (decide (o' = o)) as [->|Hne].
  - destruct (Hnone h). left.
  - apply IH. intros h' Hin. apply (Hnone h'). by right.
Qed.

Lemma remove_entries_found w
  (before after : list (TapInterfaceHandle * ObjRef)) h o :
  (forall h', (h', o) ∉ before) ->
  remove_entries w (before ++ (h, o) :: after) o =
  set_interfaces
    (Map_delete
       (interfaces (engine_call w (remove_tap_interface (engine w) (memory w) h)).1)
       h)
    (engine_call w (remove_tap_interface (engine w) (memory w) h)).1.
Proof.
  intros Hbefore.
  induction before as [|[h0 o0] before IH]; cbn [remove_entries app].
  - rewrite decide_True by done. by destruct (engine_call w _).
  - destruct (decide (o0 = o)) as [->|Hne].
    + destruct (Hbefore h0). left.
    + apply IH. intros h' Hin. apply (Hbefore h'). by right.
Qed.

(** C7: [remove] of an object that no entry of the registry maps to returns
    the world as it is; when the first entry that maps to the object is the
    one of handle [h], the engine is told to free [h] while the registry
    still holds that entry, and [h] is then deleted from the registry the
    engine's call has left. *)
Theorem remove_frees_then_deletes w (tapInterface : ObjRef) :
  ((forall h, (h, tapInterface) ∉ interfaces w) -> remove w tapInterface = w) /\
  (forall h before after,
     interfaces w = before ++ (h, tapInterface) :: after ->
     (forall h', (h', tapInterface) ∉ before) ->
     let w1 := (engine_call w (remove_tap_interface (engine w) (memory w) h)).1 in
     remove w tapInterface = set_interfaces (Map_delete (interfaces w1) h) w1 /\
     Map_get (interfaces (remove w tapInterface)) h = None).
Proof.
  unfold remove. split.
  - apply remove_entries_absent.
  - intros h before after Heq Hbefore. simpl.
    pose proof (remove_entries_found w before after h tapInterface Hbefore)
      as Hrm.
    rewrite <- Heq in Hrm. rewrite Hrm.
    split; [done|]. simpl. apply Map_get_delete.
Qed.

(** The engine's calls of the imports only add entries to the registry: a
    handle has none after a call exactly when it had none before and the
    engine did not register it. *)
Lemma Map_get_actions w (actions : list EngineAction) h :
  Map_get (interfaces (foldl do_action w actions)) h = None <->
  Map_get (interfaces w) h = None /\ CallRegisterTapInterface h ∉ actions.
Proof.
  revert w. induction actions as [|a actions IH]; intros w; simpl.
  - split; [intros Hn; split; [done | apply not_elem_of_nil] | tauto].
  - rewrite IH, not_elem_of_cons.
    destruct a as [ptr bytes|h'|h' framePtr len]; simpl.
    + intuition discriminate.
    + rewrite Map_get_set.
      destruct (decide (h' = h)); intuition (discriminate || congruence).
    + intuition discriminate.
Qed.

Lemma copyToMemory_fields w (bytes : list Z) :
  interfaces (copyToMemory w bytes).1 = interfaces w /\
  heap (copyToMemory w bytes).1 = heap w /\
  console (copyToMemory w bytes).1 = console w.
Proof.
  unfold copyToMemory. by destruct (malloc (engine w) (length bytes)).
Qed.

Lemma dispose_fields w (ptr : option Pointer) :
  interfaces (dispose w ptr) = interfaces w /\ heap (dispose w ptr) = heap w.
Proof. by destruct ptr. Qed.

(** C6: unless a serializer rejects the options before the engine is
    entered, [create] calls the engine's create operation and looks the
    returned handle up in the registry the call has left: without an entry
    it fails with [RegistrationFailed], with one it returns the object of
    that entry.  There is no entry exactly when there was none before and
    the engine did not call [register_tap_interface] for the handle. *)
Theorem create_resolves_the_handle w (options : TapInterfaceOptions)
  (w' : World E) (r : result ObjRef) :
  create w options = (w', r) ->
  (exists s e, truthy (mac options) = Some s /\
               serializeMacAddress s = Err e /\ r = Err e /\ w' = w) \/
  (exists c e, truthy (ip options) = Some c /\
               serializeIPv4Cidr c = Err e /\ r = Err e /\
               interfaces w' = interfaces w /\ heap w' = heap w) \/
  (exists w0 macAddressPtr ipAddressPtr netmaskPtr,
     let call :=
       create_tap_interface (engine w0) (memory w0) macAddressPtr ipAddressPtr
         netmaskPtr in
     let w1 := (engine_call w0 call).1 in
     let h := engine_result call in
     interfaces w0 = interfaces w /\ heap w0 = heap w /\
     interfaces w' = interfaces w1 /\ heap w' = heap w1 /\
     (Map_get (interfaces w1) h = None -> r = Err RegistrationFailed) /\
     (forall o, Map_get (interfaces w1) h = Some o -> r = Ok o) /\
     (Map_get (interfaces w1) h = None <->
      Map_get (interfaces w) h = None /\
      CallRegisterTapInterface h ∉ engine_actions call)).
Proof.
  unfold create. intros Hcreate.
  set (first := (match truthy (mac options) with
                 | Some m => (w, serializeMacAddress m)
                 | None => (set_draws (S (draws w)) w,
                            Ok (generateMacAddress (draws w)))
                 end)) in Hcreate.
  assert (H0 : interfaces first.1 = interfaces w /\ heap first.1 = heap w).
  { subst first. by destruct (truthy (mac options)). }
  destruct first as [w0 [macAddress|e]] eqn:Hfirst; simpl in H0.
  2:{ left. subst first. destruct (truthy (mac options)) as [s|]; [|done].
      inversion Hfirst; subst. inversion Hcreate; subst. by exists s, e. }
  clear Hfirst first. destruct H0 as [Hi0 Hh0].
  assert (Hcall : forall wa (ipAddressPtr netmaskPtr : option Pointer)
                         macAddressPtr,
    interfaces wa = interfaces w -> heap wa = heap w ->
    (let '(w4, h) :=
       engine_call wa
         (create_tap_interface (engine wa) (memory wa) macAddressPtr
            (default 0%Z ipAddressPtr) (default 0%Z netmaskPtr)) in
     let tapInterface := Map_get (interfaces w4) h in
     let w5 := dispose (dispose (dispose w4 netmaskPtr) ipAddressPtr)
                 (Some macAddressPtr) in
     match tapInterface with
     | None => (w5, Err RegistrationFailed)
     | Some tapInterface => (w5, Ok tapInterface)
     end) = (w', r) ->
    exists w0 macAddressPtr ipAddressPtr netmaskPtr,
     let call :=
       create_tap_interface (engine w0) (memory w0) macAddressPtr ipAddressPtr
         netmaskPtr in
     let w1 := (engine_call w0 call).1 in
     let h := engine_result call in
     interfaces w0 = interfaces w /\ heap w0 = heap w /\
     interfaces w' = interfaces w1 /\ heap w' = heap w1 /\
     (Map_get (interfaces w1) h = None -> r = Err RegistrationFailed) /\
     (forall o, Map_get (interfaces w1) h = Some o -> r = Ok o) /\
     (Map_get (interfaces w1) h = None <->
      Map_get (interfaces w) h = None /\
      CallRegisterTapInterface h ∉ engine_actions call)).
  { intros wa ipAddressPtr netmaskPtr macAddressPtr Hia Hha Hrest.
    exists wa, macAddressPtr, (default 0%Z ipAddressPtr),
      (default 0%Z netmaskPtr).
    unfold engine_call in *. simpl in *.
    set (call := create_tap_interface (engine wa) (memory wa) macAddressPtr
                   (default 0%Z ipAddressPtr) (default 0%Z netmaskPtr)) in *.
    set (w1 := foldl do_action (set_engine (engine_next call) wa)
                 (engine_actions call)) in *.
    assert (Hfields : interfaces w' = interfaces w1 /\ heap w' = heap w1).
    { destruct (Map_get (interfaces w1) (engine_result call));
        inversion Hrest; subst; by destruct netmaskPtr, ipAddressPtr. }
    destruct Hfields as [Hi' Hh']. split_and!; auto.
    - intros Hnone. rewrite Hnone in Hrest. by inversion Hrest.
    - intros o Hsome. rewrite Hsome in Hrest. by inversion Hrest.
    - subst w1. rewrite Map_get_actions. simpl. by rewrite Hia. }
  destruct (truthy (ip options)) as [c|].
  - destruct (serializeIPv4Cidr c) as [[ipAddress netmask]|e] eqn:Hcidr.
    + right. right.
      destruct (copyToMemory_fields w0 macAddress) as (Hi1 & Hh1 & _).
      destruct (copyToMemory w0 macAddress) as [w1 macAddressPtr].
      destruct (copyToMemory_fields w1 ipAddress) as (Hi2 & Hh2 & _).
      destruct (copyToMemory w1 ipAddress) as [w2 ipAddressPtr].
      destruct (copyToMemory_fields w2 netmask) as (Hi3 & Hh3 & _).
      destruct (copyToMemory w2 netmask) as [w3 netmaskPtr].
      simpl in *.
      apply (Hcall w3 (Some ipAddressPtr) (Some netmaskPtr) macAddressPtr);
        [congruence | congruence | exact Hcreate].
    + right. left. inversion Hcreate; subst. by exists c, e.
  - right. right.
    destruct (copyToMemory_fields w0 macAddress) as (Hi1 & Hh1 & _).
    destruct (copyToMemory w0 macAddress) as [w1 macAddressPtr].
    simpl in *.
    apply (Hcall w1 None None macAddressPtr);
      [congruence | congruence | exact Hcreate].
Qed.

(** C5: the outer hook [sendFrame] fails, with [SendFailed code], exactly
    when the status code the engine's send operation returns is not
    [ERR_OK]; the sink's [write] catches every failure and logs it, so the
    write succeeds and the sink stays usable; and no sink of a run is ever
    errored. *)
Theorem send_failure_is_contained w (this : ObjRef) (packet : Uint8Array)
  (object : VirtualTapInterface) :
  heap w !! this = Some object ->
  errored (writable object) = false ->
  (forall h frame,
     let marshalled := copyToMemory w (contents w frame) in
     let code :=
       engine_result
         (send_tap_interface (engine marshalled.1) (memory marshalled.1) h
            marshalled.2 (length (contents w frame))) in
     ((sendFrame w h frame).2 = Err (SendFailed code) <-> code <> ERR_OK) /\
     ((sendFrame w h frame).2 = Ok tt <-> code = ERR_OK)) /\
  (sink_write w this packet).2 = Ok tt /\
  (forall hooks err,
     outerHooks object = Some hooks ->
     (sendFrame w (handle hooks) packet).2 = Err err ->
     console (sink_write w this packet).1 =
     console (sendFrame w (handle hooks) packet).1 ++ [SendFailedLog err]) /\
  (WritableStream_write w this packet).2 = Ok tt /\
  (exists object',
     heap (WritableStream_write w this packet).1 !! this = Some object' /\
     errored (writable object') = false) /\
  (forall (e : E) (m : Memory) (evs : list (Event E)) o v,
     heap (run (init e m) evs) !! o = Some v -> errored (writable v) = false).
Proof.
  intros Hobject Husable. split_and!.
  - intros h frame. unfold sendFrame. simpl.
    destruct (copyToMemory w (contents w frame)) as [w1 framePtr]. simpl.
    unfold engine_call. simpl.
    destruct (decide (engine_result
                        (send_tap_interface (engine w1) (memory w1) h framePtr
                           (length (contents w frame))) <> ERR_OK))
      as [Hne|Heq]; simpl.
    + split; [tauto|]. split; [discriminate | intros Heq; done].
    + apply dec_stable in Heq. split; [|tauto].
      split; [discriminate | intros Hne; done].
  - apply sink_write_ok.
  - intros hooks err Hhooks Hsend. unfold sink_write, getOuter.
    rewrite Hobject, Hhooks.
    destruct (sendFrame w (handle hooks) packet) as [w1 [[]|err']];
      simpl in *; [discriminate|]. by inversion Hsend.
  - unfold WritableStream_write. rewrite Hobject, Husable.
    pose proof (sink_write_ok w this packet) as Hok.
    destruct (sink_write w this packet) as [w1 r]. simpl in Hok. by subst r.
  - destruct (evolves_WritableStream_write w this packet)
      as (_ & _ & Hold & _).
    destruct (Hold _ _ Hobject) as (object' & Hobject' & _ & _ & He & _).
    exists object'. auto.
  - intros e m evs o v Hv.
    by apply object_of_run, constructed_object in Hv as (_ & He & _).
Qed.

(** *** Deliveries happen in microtasks only *)

Lemma inbound_actions w (actions : list EngineAction) :
  inbound (foldl do_action w actions) = inbound w.
Proof.
  revert w. induction actions as [|a actions IH]; intros w; simpl; [done|].
  rewrite IH. by destruct a.
Qed.

Lemma inbound_engine_call {A : Type} w (r : EngineRun E A) :
  inbound (engine_call w r).1 = inbound w.
Proof. unfold engine_call. simpl. by rewrite inbound_actions. Qed.

Lemma inbound_copyToMemory w (bytes : list Z) :
  inbound (copyToMemory w bytes).1 = inbound w.
Proof. unfold copyToMemory. by destruct (malloc (engine w) (length bytes)). Qed.

Lemma inbound_sendFrame w h (frame : Uint8Array) :
  inbound (sendFrame w h frame).1 = inbound w.
Proof.
  unfold sendFrame.
  pose proof (inbound_copyToMemory w (contents w frame)) as H1.
  destruct (copyToMemory w (contents w frame)) as [w1 framePtr]. simpl in H1.
  match goal with
  | |- context [engine_call w1 ?r] =>
      pose proof (inbound_engine_call w1 r) as H2;
      destruct (engine_call w1 r) as [w2 code]
  end.
  simpl in H2. destruct (decide (code <> ERR_OK)); simpl; congruence.
Qed.

Lemma inbound_sink_write w o (packet : Uint8Array) :
  inbound (sink_write w o packet).1 = inbound w.
Proof.
  unfold sink_write. destruct (getOuter w o) as [hooks|e]; [|done].
  pose proof (inbound_sendFrame w (handle hooks) packet) as H1.
  by destruct (sendFrame w (handle hooks) packet) as [w' [[]|e]].
Qed.

Lemma inbound_WritableStream_write w o (packet : Uint8Array) :
  inbound (WritableStream_write w o packet).1 = inbound w.
Proof.
  unfold WritableStream_write.
  destruct (heap w !! o) as [object|]; [|done].
  destruct (errored (writable object)); [done|].
  pose proof (inbound_sink_write w o packet) as H1.
  by destruct (sink_write w o packet) as [w' [[]|e]].
Qed.

Lemma inbound_remove_entries w
  (entries : list (TapInterfaceHandle * ObjRef)) o :
  inbound (remove_entries w entries o) = inbound w.
Proof.
  induction entries as [|[h loopback] rest IH]; cbn [remove_entries]; [done|].
  destruct (decide (loopback = o)); [|exact IH].
  match goal with
  | |- context [engine_call w ?r] =>
      pose proof (inbound_engine_call w r) as H1;
      by destruct (engine_call w r) as [w1 u]
  end.
Qed.

Lemma inbound_create w (options : TapInterfaceOptions) :
  inbound (create w options).1 = inbound w.
Proof.
  unfold create.
  set (first := (match truthy (mac options) with
                 | Some m => (w, serializeMacAddress m)
                 | None => (set_draws (S (draws w)) w,
                            Ok (generateMacAddress (draws w)))
                 end)).
  assert (H0 : inbound first.1 = inbound w).
  { subst first. by destruct (truthy (mac options)). }
  destruct first as [w0 [macAddress|e]]; simpl in H0; [|done].
  destruct (truthy (ip options)) as [c|];
    [destruct (serializeIPv4Cidr c) as [[ipAddress netmask]|e]; [|done]|].
  - pose proof (inbound_copyToMemory w0 macAddress) as H1.
    destruct (copyToMemory w0 macAddress) as [w1 macAddressPtr].
    pose proof (inbound_copyToMemory w1 ipAddress) as H2.
    destruct (copyToMemory w1 ipAddress) as [w2 ipAddressPtr].
    pose proof (inbound_copyToMemory w2 netmask) as H3.
    destruct (copyToMemory w2 netmask) as [w3 netmaskPtr].
    match goal with
    | |- context [engine_call w3 ?r] =>
        pose proof (inbound_engine_call w3 r) as H4;
        destruct (engine_call w3 r) as [w4 h]
    end.
    simpl in *. destruct (Map_get (interfaces w4) h); simpl; congruence.
  - pose proof (inbound_copyToMemory w0 macAddress) as H1.
    destruct (copyToMemory w0 macAddress) as [w1 macAddressPtr].
    match goal with
    | |- context [engine_call w1 ?r] =>
        pose proof (inbound_engine_call w1 r) as H4;
        destruct (engine_call w1 r) as [w4 h]
    end.
    simpl in *. destruct (Map_get (interfaces w4) h); simpl; congruence.
Qed.

(** Only the microtask that resumes [receive_frame] calls an inner hook. *)
Lemma inbound_step w (ev : Event E) :
  ev <> EvMicrotask -> inbound (step w ev) = inbound w.
Proof.
  intros Hev. destruct ev as [options|o|r| |o|o|o|o|o|o bytes]; simpl;
    try done.
  - apply inbound_create.
  - apply inbound_remove_entries.
  - apply (inbound_engine_call w r).
  - by rewrite inbound_WritableStream_write.
Qed.

(** C3: [receive_frame] copies the bytes at [framePtr] into a buffer of its
    own and suspends: it adds one microtask and touches neither the objects
    nor the registry, and calls no inner hook; no job of the event loop other
    than a microtask calls one either.  Whatever happens until the microtask
    runs, memory writes of the engine included, the copy still shows the
    bytes the memory held at the call; and the interface then receives a
    second copy, a new array that owns a new buffer with those bytes. *)
Theorem receive_copies_then_defers w h (framePtr : Pointer) (len : nat) :
  let snapshot := load_bytes (memory w) framePtr len in
  let frame := Owned (length (buffers w)) in
  let w1 := receive_frame w h framePtr len in
  (microtasks w1 = microtasks w ++ [ResumeReceiveFrame h frame] /\
   contents w1 frame = snapshot) /\
  (heap w1 = heap w /\ interfaces w1 = interfaces w /\ inbound w1 = inbound w) /\
  (forall w0 ev, ev <> EvMicrotask -> inbound (step w0 ev) = inbound w0) /\
  (forall evs this,
     let w2 := run w1 evs in
     contents w2 frame = snapshot /\
     (Map_get (interfaces w2) h = Some this ->
      is_Some (heap w2 !! this) ->
      let w3 := receive_frame_resume w2 h frame in
      let copy := Owned (length (buffers w2)) in
      inbound w3 = inbound w2 ++ [(this, copy)] /\
      copy <> frame /\
      buffers w2 !! length (buffers w2) = None /\
      contents w3 copy = snapshot)).
Proof.
  intros snapshot frame w1.
  assert (Hw1 : contents w1 frame = snapshot).
  { subst w1 frame. unfold receive_frame, copyFromMemory. simpl.
    by rewrite list_lookup_middle. }
  assert (Hlen1 : length (buffers w1) = S (length (buffers w))).
  { subst w1. unfold receive_frame, copyFromMemory. simpl.
    rewrite length_app. simpl. lia. }
  split_and!; try done.
  - apply inbound_step.
  - intros evs this w2.
    assert (Hw2 : contents w2 frame = snapshot).
    { rewrite <- Hw1. apply contents_stable; [apply evolves_run | lia]. }
    split; [exact Hw2|]. intros Hmap [v Hv] w3 copy.
    assert (Hlen2 : length (buffers w1) <= length (buffers w2)).
    { destruct (evolves_run w1 evs) as (Hb & _). by apply prefix_length. }
    split_and!.
    + subst w3. unfold receive_frame_resume. rewrite Hmap.
      unfold Uint8Array_from, call_receiveFrame. simpl. rewrite Hv.
      by destruct (receiveFrame v (Owned (length (buffers w2)))) as [v' [[]|err]].
    + subst copy frame. intros Heq. inversion Heq. lia.
    + by apply lookup_ge_None.
    + subst w3. unfold receive_frame_resume. rewrite Hmap.
      unfold Uint8Array_from, call_receiveFrame. cbn [allocate heap set_buffers].
      rewrite Hv.
      destruct (receiveFrame v (Owned (length (buffers w2)))) as [v' [[]|err]];
        subst copy; simpl; rewrite list_lookup_middle by done; exact Hw2.
Qed.

(** C2, as the code has it: the listening flag of an interface is never
    cleared.  A frame delivered for a registered interface whose flag is set
    is copied and handed to the stream's controller whether or not a reader
    still holds the stream: if the stream was released, the copy is appended
    to the queue; as long as the stream is not closed, the copy becomes
    observable; only if the stream was cancelled is the interface left as it
    was, the enqueue failing.  The registry is not touched. *)
Theorem listening_outlives_the_reader
  (e : E) (m : Memory) (evs : list (Event E)) h (this : ObjRef)
  (v : VirtualTapInterface) (frame : Uint8Array) :
  let w := run (init e m) evs in
  Map_get (interfaces w) h = Some this ->
  heap w !! this = Some v ->
  isListening v = true ->
  let w' := receive_frame_resume w h frame in
  let copy := Owned (length (buffers w)) in
  interfaces w' = interfaces w /\
  (closed (readable v) = false -> locked (readable v) = false ->
   exists v', heap w' !! this = Some v' /\
              queue (readable v') = queue (readable v) ++ [copy] /\
              rejections w' = rejections w) /\
  (closed (readable v) = false ->
   exists v', heap w' !! this = Some v' /\ copy ∈ observable v') /\
  (closed (readable v) = true ->
   heap w' !! this = Some v /\ rejections w' = rejections w ++ [TypeError]) /\
  (forall evs' v'', heap (run w' evs') !! this = Some v'' ->
                    isListening v'' = true).
Proof.
  intros w Hmap Hv Hlis w' copy.
  pose proof (object_of_run e m evs this v Hv) as Hc.
  apply constructed_object in Hc as (Hc & _).
  assert (Hlt : this < length (heap w)) by (by eapply lookup_lt_Some).
  assert (Hw' : w' = call_receiveFrame (allocate w (contents w frame)).1 this copy).
  { subst w'. unfold receive_frame_resume. by rewrite Hmap. }
  unfold call_receiveFrame in Hw'. simpl in Hw'. rewrite Hv in Hw'.
  unfold receiveFrame, controller_enqueue in Hw'. rewrite Hlis, Hc in Hw'.
  simpl in Hw'. split_and!.
  - rewrite Hw'. destruct (closed (readable v)); [done|].
    by destruct (locked (readable v) && negb (readRequests (readable v) =? 0)).
  - intros Hopen Hfree. rewrite Hopen, Hfree in Hw'. simpl in Hw'.
    eexists. rewrite Hw'. simpl. split; [by apply list_lookup_insert_eq|].
    by simpl.
  - intros Hopen. rewrite Hopen in Hw'.
    destruct (locked (readable v) && negb (readRequests (readable v) =? 0));
      simpl in Hw'; eexists; rewrite Hw'; simpl;
      (split; [by apply list_lookup_insert_eq|]);
      unfold observable; simpl; mem_solver.
  - intros Hclosed. rewrite Hclosed in Hw'. simpl in Hw'. rewrite Hw'. simpl.
    split; [|done]. by rewrite list_insert_id.
  - intros evs' v'' Hv''.
    destruct (evolves_receive_frame_resume w h frame) as (_ & _ & Hold & _).
    destruct (Hold _ _ Hv) as (v' & Hv' & Hl & _).
    destruct (evolves_run w' evs') as (_ & _ & Hold' & _).
    destruct (Hold' _ _ Hv') as (v2 & Hv2 & Hl' & _).
    assert (v2 = v'') as -> by congruence. auto.
Qed.

End WorldFacts.

(** *** The claims on the demonstration engine *)

Import Demo.

Ltac by_running := vm_compute; reflexivity.

(** C2, as the specification states it, fails: after a reader was acquired
    and released, the frame delivered for handle 7 is in the queue. *)
Lemma discarded_source_still_buffers : ~ dropped_after_discard (E:=nat).
Proof.
  intros Hclaim.
  assert (Hmap : Map_get (interfaces (run (init 0 memory0) released)) 7%Z
                 = Some 0) by by_running.
  assert (Hv : heap (run (init 0 memory0) released) !! 0
               = Some (object (run world0 released) 0)) by by_running.
  specialize (Hclaim 0 memory0 released 7%Z 0 _ (MemoryView 16 3) Hmap Hv).
  vm_compute in Hclaim. specialize (Hclaim eq_refl eq_refl). discriminate.
Qed.

Lemma listening_outlives_the_reader_witness :
  exists v',
    heap (receive_frame_resume (run world0 released) 7%Z (MemoryView 16 3)) !! 0
    = Some v' /\
    queue (readable v') = [Owned 0].
Proof.
  assert (Hmap : Map_get (interfaces (run (init 0 memory0) released)) 7%Z
                 = Some 0) by by_running.
  assert (Hv : heap (run (init 0 memory0) released) !! 0
               = Some (object (run world0 released) 0)) by by_running.
  assert (Hlis : isListening (object (run world0 released) 0) = true)
    by by_running.
  destruct (listening_outlives_the_reader 0 memory0 released 7%Z 0 _
              (MemoryView 16 3) Hmap Hv Hlis) as (_ & Hqueue & _).
  destruct Hqueue as (v' & Hv' & Hq & _); [by_running | by_running |].
  exists v'. split; [exact Hv' | exact Hq].
Defined.

Lemma frames_before_listening_are_dropped_witness :
  Owned 1 ∉ observable (object (run (run world0 unheard) heard) 0).
Proof.
  assert (Hv1 : heap (run (init 0 memory0) unheard) !! 0
                = Some (object (run world0 unheard) 0)) by by_running.
  assert (Hlis : isListening (object (run world0 unheard) 0) = false)
    by by_running.
  assert (Hv2 : heap (run (run (init 0 memory0) unheard) heard) !! 0
                = Some (object (run (run world0 unheard) heard) 0))
    by by_running.
  destruct (frames_before_listening_are_dropped 0 memory0 unheard heard 0 _ _
              Hv1 Hlis Hv2) as (_ & _ & _ & _ & Hnever).
  apply Hnever. vm_compute. left.
Defined.

Lemma controller_always_initialized_witness :
  (receiveFrame (object registered 0) (Owned 0)).2 <> Err StreamNotInitialized.
Proof.
  assert (Hv : heap (run (init 0 memory0) [register7]) !! 0
               = Some (object registered 0)) by by_running.
  destruct (controller_always_initialized 0 memory0 [register7] 0 _ Hv)
    as (_ & _ & Hnever).
  apply Hnever.
Defined.

Lemma listen_is_exclusive_witness :
  exists v', listen VirtualTapInterface_new = (v', Ok tt) /\
             listen v' = (v', Err AlreadyListening).
Proof.
  destruct (listen_is_exclusive (E:=nat) VirtualTapInterface_new)
    as (_ & Hfirst & _).
  destruct Hfirst as (v' & Hok & _ & _ & Hsecond); [by_running|].
  exists v'. split; [exact Hok | exact Hsecond].
Defined.

Lemma unknown_handle_is_logged_witness :
  console (receive_frame_resume world0 7%Z (Owned 0)) = [UnknownTapInterface] /\
  heap (receive_frame_resume world0 7%Z (Owned 0)) = [].
Proof.
  assert (Hnone : Map_get (interfaces world0) 7%Z = None) by by_running.
  destruct (unknown_handle_is_logged world0 7%Z (Owned 0) Hnone)
    as (Hconsole & _ & _ & Hheap & _).
  split; [exact Hconsole | exact Hheap].
Defined.

Lemma remove_frees_then_deletes_witness :
  remove world0 0 = world0 /\
  Map_get (interfaces (remove registered 0)) 7%Z = None.
Proof.
  split.
  - apply (proj1 (remove_frees_then_deletes world0 0)).
    intros h. apply not_elem_of_nil.
  - assert (Hentries : interfaces registered = [] ++ (7%Z, 0) :: [])
      by by_running.
    apply (proj2 (remove_frees_then_deletes registered 0) 7%Z [] [] Hentries).
    intros h'. apply not_elem_of_nil.
Defined.

Lemma create_resolves_the_handle_witness :
  exists w', create world0 (mkOptions None None) = (w', Ok 0).
Proof.
  exists (create world0 (mkOptions None None)).1.
  assert (Hrun : create world0 (mkOptions None None)
                 = ((create world0 (mkOptions None None)).1,
                    (create world0 (mkOptions None None)).2))
    by apply surjective_pairing.
  destruct (create_resolves_the_handle world0 (mkOptions None None) _ _ Hrun)
    as [(s & e & Hs & _)|[(c & e & Hc & _)|(w0 & p1 & p2 & p3 & Hcall)]].
  - discriminate Hs.
  - discriminate Hc.
  - rewrite Hrun at 1. f_equal.
Defined.

Lemma send_failure_is_contained_witness :
  (sendFrame registered 7%Z (MemoryView 16 3)).2 = Err (SendFailed 16) /\
  (WritableStream_write registered 0 (MemoryView 16 3)).2 = Ok tt.
Proof.
  assert (Hv : heap registered !! 0 = Some (object registered 0)) by by_running.
  assert (Husable : errored (writable (object registered 0)) = false)
    by by_running.
  destruct (send_failure_is_contained registered 0 (MemoryView 16 3) _
              Hv Husable) as (Hsend & _ & _ & Hwrite & _).
  split; [|exact Hwrite].
  apply (proj1 (Hsend 7%Z (MemoryView 16 3))). vm_compute. discriminate.
Defined.

Lemma receive_copies_then_defers_witness :
  contents
    (run (receive_frame world0 7%Z 16 3)
       [EvEngine (mkEngineRun 0 [MemoryStore 16 [0; 0; 0]%Z] tt)])
    (Owned 0)
  = [16; 17; 18]%Z.
Proof.
  destruct (receive_copies_then_defers world0 7%Z 16 3) as (_ & _ & _ & Hlater).
  exact (proj1 (Hlater [EvEngine (mkEngineRun 0 [MemoryStore 16 [0; 0; 0]%Z] tt)]
                  0)).
Defined.

End TapFacts.

(** ** Properties of runs *)

Module TapRunsFacts.
Import Tap TapRuns.

Local Open Scope nat_scope.

Section Decomposition.
Context {E : Type} `{!TapExports E} `{!Imported}.
Implicit Types (w : World E) (o : ObjRef) (h : TapInterfaceHandle).

Abbreviation steps := (rtc atomic).

Lemma steps_env w w' :
  buffers w' = buffers w -> heap w' = heap w ->
  interfaces w' = interfaces w -> microtasks w' = microtasks w ->
  inbound w' = inbound w ->
  steps w w'.
Proof. intros. by apply rtc_once, atomic_env. Qed.

Lemma steps_do_action w (a : EngineAction) : steps w (do_action w a).
Proof.
  destruct a as [ptr bytes|h|h framePtr len]; simpl.
  - by apply steps_env.
  - apply rtc_once, atomic_register.
  - apply rtc_once, atomic_receive.
Qed.

Lemma steps_actions w (actions : list EngineAction) :
  steps w (foldl do_action w actions).
Proof.
  revert w. induction actions as [|a actions IH]; intros w; simpl; [done|].
  etrans; [apply steps_do_action | apply IH].
Qed.

Lemma steps_engine_call {A : Type} w (r : EngineRun E A) :
  steps w (engine_call w r).1.
Proof.
  unfold engine_call. simpl.
  etrans; [|apply steps_actions]. by apply steps_env.
Qed.

Lemma steps_copyToMemory w (bytes : list Z) : steps w (copyToMemory w bytes).1.
Proof.
  unfold copyToMemory. destruct (malloc (engine w) (length bytes)) as [e ptr].
  by apply steps_env.
Qed.

Lemma steps_dispose w (ptr : option Pointer) : steps w (dispose w ptr).
Proof. destruct ptr; simpl; [by apply steps_env | done]. Qed.

Lemma steps_sendFrame w h (frame : Uint8Array) : steps w (sendFrame w h frame).1.
Proof.
  unfold sendFrame.
  pose proof (steps_copyToMemory w (contents w frame)) as H1.
  destruct (copyToMemory w (contents w frame)) as [w1 framePtr]. simpl in H1.
  match goal with
  | |- context [engine_call w1 ?r] =>
      pose proof (steps_engine_call w1 r) as H2;
      destruct (engine_call w1 r) as [w2 code]
  end.
  simpl in H2. destruct (decide (code <> ERR_OK)); simpl; by etrans.
Qed.

Lemma steps_sink_write w o (packet : Uint8Array) :
  steps w (sink_write w o packet).1.
Proof.
  unfold sink_write.
  destruct (getOuter w o) as [hooks|e]; [|by apply steps_env].
  pose proof (steps_sendFrame w (handle hooks) packet) as H1.
  destruct (sendFrame w (handle hooks) packet) as [w' [[]|e]]; simpl in *;
    [done|].
  etrans; [exact H1 | by apply steps_env].
Qed.

Lemma steps_WritableStream_write w o (packet : Uint8Array) :
  steps w (WritableStream_write w o packet).1.
Proof.
  unfold WritableStream_write.
  destruct (heap w !! o) as [object|]; [|done].
  destruct (errored (writable object)); [done|].
  pose proof (steps_sink_write w o packet) as H1.
  pose proof (TapFacts.sink_write_ok w o packet) as H2.
  destruct (sink_write w o packet) as [w' r]. simpl in *. by subst r.
Qed.

Lemma steps_create w (options : TapInterfaceOptions) :
  steps w (create w options).1.
Proof.
  unfold create.
  set (w0 := (match truthy (mac options) with
              | Some m => (w, serializeMacAddress m)
              | None => (set_draws (S (draws w)) w,
                         Ok (generateMacAddress (draws w)))
              end)).
  assert (H0 : steps w w0.1).
  { subst w0. destruct (truthy (mac options)); simpl;
      [done | by apply steps_env]. }
  destruct w0 as [w0 [macAddress|e]]; simpl in H0; [|done].
  destruct (truthy (ip options)) as [c|];
    [destruct (serializeIPv4Cidr c) as [[ipAddress netmask]|e]; [|done]|].
  - pose proof (steps_copyToMemory w0 macAddress) as H1.
    destruct (copyToMemory w0 macAddress) as [w1 macAddressPtr].
    pose proof (steps_copyToMemory w1 ipAddress) as H2.
    destruct (copyToMemory w1 ipAddress) as [w2 ipAddressPtr].
    pose proof (steps_copyToMemory w2 netmask) as H3.
    destruct (copyToMemory w2 netmask) as [w3 netmaskPtr].
    match goal with
    | |- context [engine_call w3 ?r] =>
        pose proof (steps_engine_call w3 r) as H4;
        destruct (engine_call w3 r) as [w4 h]
    end.
    simpl in *.
    assert (steps w (dispose (dispose (dispose w4 (Some netmaskPtr))
                                (Some ipAddressPtr)) (Some macAddressPtr))).
    { repeat (etrans; [|apply steps_dispose]).
      by repeat (etrans; [eassumption|]). }
    destruct (Map_get (interfaces w4) h); done.
  - pose proof (steps_copyToMemory w0 macAddress) as H1.
    destruct (copyToMemory w0 macAddress) as [w1 macAddressPtr].
    match goal with
    | |- context [engine_call w1 ?r] =>
        pose proof (steps_engine_call w1 r) as H4;
        destruct (engine_call w1 r) as [w4 h]
    end.
    simpl in *.
    assert (steps w (dispose (dispose (dispose w4 None) None)
                       (Some macAddressPtr))).
    { repeat (etrans; [|apply steps_dispose]).
      by repeat (etrans; [eassumption|]). }
    destruct (Map_get (interfaces w4) h); done.
Qed.

Lemma steps_remove_entries w
  (entries : list (TapInterfaceHandle * ObjRef)) o :
  steps w (remove_entries w entries o).
Proof.
  induction entries as [|[h loopback] rest IH]; cbn [remove_entries]; [done|].
  destruct (decide (loopback = o)); [|exact IH].
  match goal with
  | |- context [engine_call w ?r] =>
      pose proof (steps_engine_call w r) as H1;
      destruct (engine_call w r) as [w1 u]
  end.
  simpl in H1. etrans; [exact H1|]. apply rtc_once, atomic_unregister.
Qed.

Lemma steps_receive_frame_resume w h (frame : Uint8Array) :
  steps w (receive_frame_resume w h frame).
Proof.
  unfold receive_frame_resume.
  destruct (Map_get (interfaces w) h) as [o|] eqn:Hmap; [|by apply steps_env].
  apply rtc_once. by apply (atomic_deliver w h o frame).
Qed.

(** Every job of the event loop is a sequence of atomic changes. *)
Lemma steps_step w (ev : Event E) : steps w (step w ev).
Proof.
  destruct ev as [options|o|r| |o|o|o|o|o|o bytes]; simpl.
  - apply steps_create.
  - apply steps_remove_entries.
  - apply (steps_engine_call w r).
  - destruct (microtasks w) as [|[h frame] rest] eqn:Hq; [done|].
    etrans; [apply rtc_once, (atomic_pop w _ _ Hq)|].
    apply steps_receive_frame_resume.
  - apply rtc_once, atomic_method, method_getReader.
  - apply rtc_once, atomic_method, method_listen.
  - apply rtc_once, atomic_method, method_read.
  - apply rtc_once, atomic_method, method_releaseLock.
  - apply rtc_once, atomic_method, method_cancel.
  - etrans; [apply rtc_once, (atomic_allocate w bytes)|].
    apply steps_WritableStream_write.
Qed.

Lemma steps_run w (evs : list (Event E)) : steps w (run w evs).
Proof.
  revert w. induction evs as [|ev evs IH]; intros w; simpl; [done|].
  etrans; [apply steps_step | apply IH].
Qed.

(** An invariant of the atomic changes holds all along a run. *)
Lemma invariant_of_runs (P : World E -> Prop) :
  (forall w w', atomic w w' -> P w -> P w') ->
  forall w w', steps w w' -> P w -> P w'.
Proof. intros Hstep w w' Hsteps. induction Hsteps; eauto. Qed.

End Decomposition.

(** *** One object *)

Section Objects.

Lemma frames_for_snoc (calls : list (ObjRef * Uint8Array)) (this o : ObjRef)
  (fr : Uint8Array) :
  frames_for this (calls ++ [(o, fr)]) =
  frames_for this calls ++ (if decide (o = this) then [fr] else []).
Proof.
  unfold frames_for. rewrite filter_app, fmap_app. f_equal.
  rewrite filter_singleton; [|exact calls]. simpl.
  by destruct (decide (o = this)).
Qed.

Lemma frames_for_elem_of (calls : list (ObjRef * Uint8Array)) (this : ObjRef)
  (fr : Uint8Array) :
  fr ∈ frames_for this calls <-> (this, fr) ∈ calls.
Proof.
  unfold frames_for. rewrite list_elem_of_fmap. split.
  - intros ([o fr'] & -> & Hin). apply list_elem_of_filter in Hin as [Ho Hin].
    simpl in *. by subst.
  - intros Hin. exists (this, fr). split; [done|].
    by apply list_elem_of_filter.
Qed.

Lemma frames_for_sublist (calls : list (ObjRef * Uint8Array)) (this : ObjRef) :
  frames_for this calls `sublist_of` calls.*2.
Proof. unfold frames_for. apply fmap_sublist, sublist_filter. Qed.

Lemma stream_ok_new : stream_ok (readable VirtualTapInterface_new).
Proof. split; simpl; [done | discriminate]. Qed.

(** What a consumer's method does to the object: the hooks, the controller
    and the bookkeeping stay, a set listening flag and a closed stream stay,
    and what is observable can only lose queued chunks, on [cancel]. *)
Lemma consumer_method_facts (f : VirtualTapInterface -> VirtualTapInterface)
  (v : VirtualTapInterface) :
  consumer_method f ->
  outerHooks (f v) = outerHooks v /\
  readableController (f v) = readableController v /\
  (isListening v = true -> isListening (f v) = true) /\
  (closed (readable v) = true -> closed (readable (f v)) = true) /\
  (stream_ok (readable v) -> stream_ok (readable (f v))) /\
  observable (f v) `sublist_of` observable v /\
  (closed (readable (f v)) = false ->
   closed (readable v) = false /\ observable (f v) = observable v) /\
  (closed (readable v) = true -> stream_ok (readable v) ->
   observable (f v) = observable v).
Proof.
  intros Hf. destruct v as [c lis [lk cl q rr dl] wr hooks].
  destruct Hf; unfold getReader, acquire_reader, listen, fromReadable,
    on_readable, reader_read, reader_releaseLock, stream_cancel, stream_ok,
    observable; simpl.
  - destruct lk; simpl; split_and!; auto; intuition congruence.
  - destruct lk; simpl; split_and!; auto; intuition congruence.
  - destruct lk; simpl; [|split_and!; auto].
    destruct q as [|chunk rest]; simpl.
    + destruct cl; simpl; split_and!; auto; intuition (congruence || lia).
    + split_and!; auto.
      * intros [Hrr Hcl]. split; [intros Hne; by destruct (Hrr Hne)|].
        intros ->. by destruct (Hcl eq_refl).
      * by rewrite <- app_assoc.
      * intros ->. split; [done|]. by rewrite <- app_assoc.
      * intros -> [_ Hcl]. by destruct (Hcl eq_refl).
  - split_and!; auto; intuition congruence.
  - split_and!; auto; try done.
    + apply sublist_app; [done | apply sublist_nil_l].
    + intros -> [_ Hcl]. by destruct (Hcl eq_refl) as [-> _].
Qed.

(** What the inner hook does to the object. *)
Lemma receiveFrame_facts (v : VirtualTapInterface) (fr : Uint8Array) :
  let v' := (receiveFrame v fr).1 in
  outerHooks v' = outerHooks v /\
  readableController v' = readableController v /\
  isListening v' = isListening v /\
  closed (readable v') = closed (readable v) /\
  (closed (readable v) = true -> v' = v) /\
  (stream_ok (readable v) ->
   stream_ok (readable v') /\
   (observable v' = observable v \/ observable v' = observable v ++ [fr]) /\
   (isListening v = true -> is_Some (readableController v) ->
    closed (readable v) = false -> observable v' = observable v ++ [fr])).
Proof.
  destruct v as [c lis [lk cl q rr dl] wr hooks].
  unfold receiveFrame, controller_enqueue, stream_ok, observable. simpl.
  assert (Hnone : ~ is_Some (@None ReadableStreamController))
    by (intros [? ?]; discriminate).
  destruct lis; simpl;
    [|split_and!; auto; intros [Hrr Hcl]; split_and!; auto; discriminate].
  destruct c as [c|]; simpl;
    [|split_and!; auto; intros [Hrr Hcl]; split_and!; auto;
      intros _ Hc; by destruct Hnone].
  destruct cl; simpl;
    [split_and!; auto; intros [Hrr Hcl]; split_and!; auto; discriminate|].
  destruct lk; simpl; [destruct rr as [|rr]; simpl|];
    (split_and!; auto; try done; intros [Hrr Hcl]).
  - split_and!; [done | discriminate | right; by rewrite app_assoc |].
    intros _ _ _. by rewrite app_assoc.
  - destruct Hrr as [-> _]; [done|].
    split_and!; [done | discriminate | right; by rewrite !app_nil_r |].
    intros _ _ _. by rewrite !app_nil_r.
  - split_and!; [|discriminate | right; by rewrite app_assoc |].
    + intros Hne. by destruct (Hrr Hne).
    + intros _ _ _. by rewrite app_assoc.
Qed.

End Objects.

(** *** Invariants of the atomic changes *)

Section Invariants.
Context {E : Type} `{!TapExports E} `{!Imported}.
Implicit Types (w : World E) (o : ObjRef) (h : TapInterfaceHandle).

Abbreviation steps := (rtc atomic).

(** The fields after a delivery. *)
Lemma deliver_fields w o (frame : Uint8Array) :
  let copy := Owned (length (buffers w)) in
  let w' := call_receiveFrame (Uint8Array_from w frame).1 o copy in
  buffers w' = buffers w ++ [contents w frame] /\
  interfaces w' = interfaces w /\
  microtasks w' = microtasks w /\
  console w' = console w /\
  match heap w !! o with
  | None => heap w' = heap w /\ inbound w' = inbound w
  | Some v =>
      heap w' = <[o := (receiveFrame v copy).1]> (heap w) /\
      inbound w' = inbound w ++ [(o, copy)]
  end.
Proof.
  unfold call_receiveFrame, Uint8Array_from. simpl.
  destruct (heap w !! o) as [v|]; [|done].
  by destruct (receiveFrame v (Owned (length (buffers w)))) as [v' [[]|e]].
Qed.

(** A relation between the states of one object that the consumer's methods
    and the inner hook keep holds between its states at any two points of a
    run. *)
Lemma object_tracked (Q : VirtualTapInterface -> VirtualTapInterface -> Prop)
  `{!PreOrder Q} :
  (forall f v, consumer_method f -> Q v (f v)) ->
  (forall v fr, Q v (receiveFrame v fr).1) ->
  forall w w', steps w w' ->
  forall o v, heap w !! o = Some v ->
  exists v', heap w' !! o = Some v' /\ Q v v'.
Proof.
  intros Hmethod Hhook w w' Hsteps.
  induction Hsteps as [w|w w1 w' Hat _ IH]; intros o v Hv.
  { exists v. split; [done | reflexivity]. }
  assert (Hone : exists v1, heap w1 !! o = Some v1 /\ Q v v1).
  { destruct Hat as [w w1 _ Hh _ _ _|w bytes|w h framePtr len|w k rest _|w h
                    |w h this frame _|w this f Hf|w h].
    - exists v. by rewrite Hh.
    - by exists v.
    - by exists v.
    - by exists v.
    - exists v. split; [|reflexivity].
      unfold register_tap_interface. simpl. by apply lookup_app_l_Some.
    - destruct (deliver_fields w this frame) as (_ & _ & _ & _ & Hcase).
      destruct (heap w !! this) as [vt|] eqn:Hvt.
      + destruct Hcase as [-> _]. destruct (decide (this = o)) as [->|Hne].
        * eexists. split; [apply list_lookup_insert_eq; by eapply lookup_lt_Some|].
          assert (vt = v) as -> by congruence. apply Hhook.
        * exists v. split; [by rewrite list_lookup_insert_ne | reflexivity].
      + destruct Hcase as [-> _]. by exists v.
    - simpl. destruct (decide (this = o)) as [->|Hne].
      + exists (f v). split; [by rewrite list_lookup_alter_eq, Hv | auto].
      + exists v. split; [by rewrite list_lookup_alter_ne | reflexivity].
    - by exists v. }
  destruct Hone as (v1 & Hv1 & Hq1).
  destruct (IH o v1 Hv1) as (v' & Hv' & Hq').
  exists v'. split; [done | by etrans].
Qed.

Lemma chunks_in_order_atomic w w' :
  atomic w w' -> chunks_in_order w -> chunks_in_order w'.
Proof.
  intros Hat Hinv.
  destruct Hat as [w w1 _ Hh _ _ Hin|w bytes|w h framePtr len|w k rest _|w h
                  |w h this frame _|w this f Hf|w h]; try exact Hinv.
  - intros o v. rewrite Hh, Hin. apply Hinv.
  - intros o v. unfold register_tap_interface. simpl.
    intros Hv. apply lookup_app_Some in Hv as [Hv|[_ Hv]]; [by apply Hinv|].
    apply list_elem_of_lookup_2, list_elem_of_singleton in Hv as ->.
    split; [apply stream_ok_new | apply sublist_nil_l].
  - destruct (deliver_fields w this frame) as (_ & _ & _ & _ & Hcase).
    destruct (heap w !! this) as [vt|] eqn:Hvt.
    + destruct Hcase as [Hheap Hinb]. intros o v. rewrite Hheap, Hinb.
      rewrite frames_for_snoc. destruct (decide (this = o)) as [->|Hne].
      * rewrite list_lookup_insert_eq by (by eapply lookup_lt_Some).
        intros [= <-]. destruct (Hinv o vt Hvt) as [Hok Hsub].
        destruct (receiveFrame_facts vt (Owned (length (buffers w))))
          as (_ & _ & _ & _ & _ & Hrecv).
        destruct (Hrecv Hok) as (Hok' & [->| ->] & _); split; auto.
        -- by apply sublist_inserts_r.
        -- by apply sublist_app.
      * rewrite list_lookup_insert_ne by done. rewrite app_nil_r. apply Hinv.
    + destruct Hcase as [Hheap Hinb]. intros o v. rewrite Hheap, Hinb.
      apply Hinv.
  - intros o v. simpl. destruct (decide (this = o)) as [->|Hne].
    + rewrite list_lookup_alter_eq.
      destruct (heap w !! o) as [v0|] eqn:Hv0; [|discriminate].
      intros [= <-]. destruct (Hinv o v0 Hv0) as [Hok Hsub].
      destruct (consumer_method_facts f v0 Hf)
        as (_ & _ & _ & _ & Hok' & Hsub' & _).
      split; [auto | by etrans].
    + rewrite list_lookup_alter_ne by done. apply Hinv.
Qed.

Lemma frames_distinct_atomic w w' :
  atomic w w' -> frames_distinct w -> frames_distinct w'.
Proof.
  intros Hat [Hown Hnodup]. unfold frames_distinct, pending_frames in *.
  destruct Hat as [w w1 Hb _ _ Hq Hin|w bytes|w h framePtr len|w k rest Hq|w h
                  |w h this frame _|w this f Hf|w h]; try (by split).
  - rewrite Hb, Hq, Hin. by split.
  - split; [|done]. intros fr Hfr. destruct (Hown fr Hfr) as (id & -> & Hid).
    exists id. split; [done|]. simpl. rewrite length_app. lia.
  - unfold receive_frame, copyFromMemory, nextMicrotask. simpl.
    rewrite fmap_app, app_assoc. simpl. split.
    + intros fr Hfr. rewrite length_app. simpl.
      apply elem_of_app in Hfr as [Hfr|Hfr].
      * destruct (Hown fr Hfr) as (id & -> & Hid). exists id. split; [done | lia].
      * apply list_elem_of_singleton in Hfr as ->. eexists. split; [done | lia].
    + apply NoDup_app. split_and!; [done | | apply NoDup_singleton].
      intros fr Hfr Hnew. apply list_elem_of_singleton in Hnew as ->.
      destruct (Hown _ Hfr) as (id & Heq & Hid). inversion Heq. lia.
  - simpl. rewrite Hq in Hown, Hnodup. simpl in *. split.
    + intros fr Hfr. apply Hown. apply elem_of_app in Hfr as [Hfr|Hfr];
        apply elem_of_app; [by left | right; by right].
    + apply NoDup_app in Hnodup as (Hn1 & Hdisj & Hn2).
      apply NoDup_cons in Hn2 as [_ Hn2]. apply NoDup_app. split_and!; auto.
      intros fr Hfr Hrest. apply (Hdisj fr Hfr). by right.
  - destruct (deliver_fields w this frame) as (Hb & _ & Hq & _ & Hcase).
    destruct (heap w !! this) as [vt|];
      destruct Hcase as [_ Hin]; rewrite Hb, Hq, Hin, length_app; simpl.
    + rewrite fmap_app. simpl. split.
      * intros fr Hfr.
        assert (Hcases : fr ∈ (inbound w).*2 ++
                           ((fun k => match k with
                                      | ResumeReceiveFrame _ frame => frame
                                      end) <$> microtasks w)
                         \/ fr = Owned (length (buffers w))).
        { rewrite !elem_of_app in Hfr. rewrite elem_of_app.
          rewrite list_elem_of_singleton in Hfr. tauto. }
        destruct Hcases as [Hold| ->].
        -- destruct (Hown fr Hold) as (id & -> & Hid).
           exists id. split; [done | lia].
        -- eexists. split; [done | lia].
      * apply NoDup_app in Hnodup as (Hn1 & Hdisj & Hn2).
        apply NoDup_app. split_and!; [|
          |done].
        -- apply NoDup_app. split_and!; [done | | apply NoDup_singleton].
           intros fr Hfr Hnew. apply list_elem_of_singleton in Hnew as ->.
           destruct (Hown (Owned (length (buffers w)))) as (id & Heq & Hid);
             [apply elem_of_app; by left|].
           inversion Heq. lia.
        -- intros fr Hfr. apply elem_of_app in Hfr as [Hfr|Hfr];
             [by apply Hdisj|].
           apply list_elem_of_singleton in Hfr as ->. intros Hpend.
           destruct (Hown (Owned (length (buffers w)))) as (id & Heq & Hid);
             [apply elem_of_app; by right|].
           inversion Heq. lia.
    + split; [|done].
      intros fr Hfr. destruct (Hown fr Hfr) as (id & -> & Hid).
      exists id. split; [done | lia].
Qed.

Lemma Map_set_keys {V : Type} (m : list (Z * V)) (k : Z) (v : V) :
  NoDup m.*1 -> NoDup (Map_set m k v).*1.
Proof.
  induction m as [|[k0 v0] m IH]; simpl; [intros _; apply NoDup_singleton|].
  intros Hnd. apply NoDup_cons in Hnd as [Hk0 Hnd].
  destruct (decide (k0 = k)) as [->|Hne]; simpl.
  - by apply NoDup_cons.
  - apply NoDup_cons. split; [|auto].
    intros Hin. apply list_elem_of_fmap in Hin as ([k1 v1] & Hk1 & Hin).
    simpl in Hk1. subst k1.
    apply TapFacts.Map_set_elem_of in Hin as [Hin|Heq].
    + apply Hk0. apply list_elem_of_fmap. by exists (k0, v1).
    + inversion Heq. congruence.
Qed.

Lemma Map_set_values {V : Type} (m : list (Z * V)) (k : Z) (v : V) :
  NoDup m.*2 -> v ∉ m.*2 -> NoDup (Map_set m k v).*2.
Proof.
  induction m as [|[k0 v0] m IH]; simpl; [intros _ _; apply NoDup_singleton|].
  intros Hnd Hv. apply NoDup_cons in Hnd as [Hv0 Hnd].
  apply not_elem_of_cons in Hv as [Hne Hv].
  destruct (decide (k0 = k)) as [->|Hk]; simpl.
  - by apply NoDup_cons.
  - apply NoDup_cons. split; [|auto].
    intros Hin. apply list_elem_of_fmap in Hin as ([k1 v1] & Hv1 & Hin).
    simpl in Hv1. subst v1.
    apply TapFacts.Map_set_elem_of in Hin as [Hin|Heq].
    + apply Hv0. apply list_elem_of_fmap. by exists (k1, v0).
    + inversion Heq. congruence.
Qed.

Lemma Map_delete_sublist {V : Type} (m : list (Z * V)) (k : Z) :
  Map_delete m k `sublist_of` m.
Proof. unfold Map_delete. apply sublist_filter. Qed.

Lemma registry_consistent_atomic w w' :
  atomic w w' -> registry_consistent w -> registry_consistent w'.
Proof.
  intros Hat (Hkeys & Hvals & Hent & Hhooks). unfold registry_consistent.
  destruct Hat as [w w1 _ Hh Hi _ _|w bytes|w h framePtr len|w k rest _|w h
                  |w h this frame _|w this f Hf|w h]; try (by split_and!).
  - rewrite Hh, Hi. by split_and!.
  - unfold register_tap_interface. simpl. split_and!.
    + by apply Map_set_keys.
    + apply Map_set_values; [done|]. intros Hin.
      apply list_elem_of_fmap in Hin as ([h' o'] & Ho' & Hin). simpl in Ho'.
      subst o'. destruct (Hent _ _ Hin) as (v & Hv & _).
      apply lookup_lt_Some in Hv. lia.
    + intros h' o Hin. apply TapFacts.Map_set_elem_of in Hin as [Hin|Heq].
      * destruct (Hent _ _ Hin) as (v & Hv & Hk). exists v.
        split; [by apply lookup_app_l_Some | done].
      * inversion Heq; subst. eexists. split; [by apply list_lookup_middle|].
        done.
    + intros o v Hv. apply lookup_app_Some in Hv as [Hv|[_ Hv]]; [eauto|].
      apply list_elem_of_lookup_2, list_elem_of_singleton in Hv as ->.
      by eexists.
  - destruct (deliver_fields w this frame) as (_ & Hi & _ & _ & Hcase).
    rewrite Hi. destruct (heap w !! this) as [vt|] eqn:Hvt;
      destruct Hcase as [Hheap _]; rewrite Hheap; [|by split_and!].
    destruct (receiveFrame_facts vt (Owned (length (buffers w))))
      as (Hsame & _).
    split_and!; auto.
    + intros h' o Hin. destruct (Hent _ _ Hin) as (v & Hv & Hk).
      destruct (decide (this = o)) as [->|Hne].
      * eexists. split; [apply list_lookup_insert_eq; by eapply lookup_lt_Some|].
        rewrite Hsame. congruence.
      * exists v. split; [by rewrite list_lookup_insert_ne | done].
    + intros o v. destruct (decide (this = o)) as [->|Hne].
      * rewrite list_lookup_insert_eq by (by eapply lookup_lt_Some).
        intros [= <-]. rewrite Hsame. eauto.
      * rewrite list_lookup_insert_ne by done. eauto.
  - simpl. split_and!; auto.
    + intros h' o Hin. destruct (Hent _ _ Hin) as (v & Hv & Hk).
      destruct (consumer_method_facts f v Hf) as (Hsame & _).
      destruct (decide (this = o)) as [->|Hne].
      * exists (f v). split; [by rewrite list_lookup_alter_eq, Hv|]. congruence.
      * exists v. split; [by rewrite list_lookup_alter_ne | done].
    + intros o v. destruct (decide (this = o)) as [->|Hne].
      * rewrite list_lookup_alter_eq.
        destruct (heap w !! o) as [v0|] eqn:Hv0; [|discriminate].
        intros [= <-]. destruct (consumer_method_facts f v0 Hf) as (-> & _).
        eauto.
      * rewrite list_lookup_alter_ne by done. eauto.
  - simpl. pose proof (Map_delete_sublist (interfaces w) h) as Hsub.
    split_and!; auto.
    + eapply sublist_NoDup; [exact Hkeys | by apply fmap_sublist].
    + eapply sublist_NoDup; [exact Hvals | by apply fmap_sublist].
    + intros h' o Hin. apply Hent.
      by apply TapFacts.Map_delete_elem_of in Hin as [Hin _].
Qed.

(** The invariants hold in every world of a run. *)
Lemma invariants_of_runs (e : E) (m : Memory) (evs : list (Event E)) :
  chunks_in_order (run (init e m) evs) /\
  frames_distinct (run (init e m) evs) /\
  registry_consistent (run (init e m) evs).
Proof.
  pose proof (steps_run (init e m) evs) as Hsteps. split_and!.
  - eapply (invariant_of_runs chunks_in_order); eauto using chunks_in_order_atomic.
    intros o v Hv. inversion Hv.
  - eapply (invariant_of_runs frames_distinct); eauto using frames_distinct_atomic.
    split; [intros fr Hfr; inversion Hfr | apply NoDup_nil_2].
  - eapply (invariant_of_runs registry_consistent);
      eauto using registry_consistent_atomic.
    split_and!; try apply NoDup_nil_2.
    + intros h o Hin. inversion Hin.
    + intros o v Hv. inversion Hv.
Qed.

End Invariants.

(** *** Order and ownership of the frames *)

Section Frames.
Context {E : Type} `{!TapExports E} `{!Imported}.
Implicit Types (w : World E) (o : ObjRef) (h : TapInterfaceHandle).

Abbreviation steps := (rtc atomic).

Lemma frames_for_app (calls1 calls2 : list (ObjRef * Uint8Array)) (this : ObjRef) :
  frames_for this (calls1 ++ calls2) =
  frames_for this calls1 ++ frames_for this calls2.
Proof. unfold frames_for. by rewrite filter_app, fmap_app. Qed.

(** X1: what the consumer of an interface can observe is always, in the order
    of arrival and without repetition, a selection of the frames that were
    handed to the interface's inner hook. *)
Theorem chunks_follow_arrival_order
  (e : E) (m : Memory) (evs : list (Event E)) (this : ObjRef)
  (v : VirtualTapInterface) :
  heap (run (init e m) evs) !! this = Some v ->
  observable v `sublist_of` frames_for this (inbound (run (init e m) evs)).
Proof.
  intros Hv. destruct (invariants_of_runs e m evs) as (Horder & _).
  by destruct (Horder this v Hv).
Qed.

(** X2: from a point where an interface is listening, and as long as its
    stream has not been cancelled, no frame is lost, repeated or reordered:
    what is observable is what was observable then, followed by exactly the
    frames handed to the hook since, in their order of arrival. *)
Theorem listening_loses_no_frame
  (e : E) (m : Memory) (evs1 evs2 : list (Event E)) (this : ObjRef)
  (v1 v2 : VirtualTapInterface) :
  heap (run (init e m) evs1) !! this = Some v1 ->
  isListening v1 = true ->
  heap (run (run (init e m) evs1) evs2) !! this = Some v2 ->
  closed (readable v2) = false ->
  exists later,
    inbound (run (run (init e m) evs1) evs2)
    = inbound (run (init e m) evs1) ++ later /\
    observable v2 = observable v1 ++ frames_for this later.
Proof.
  intros Hv1 Hlis Hv2 Hopen.
  set (w1 := run (init e m) evs1) in *.
  set (P := fun w : World E =>
    exists later v,
      inbound w = inbound w1 ++ later /\
      heap w !! this = Some v /\
      isListening v = true /\
      is_Some (readableController v) /\
      stream_ok (readable v) /\
      (closed (readable v) = false ->
       observable v = observable v1 ++ frames_for this later)).
  assert (Hstart : P w1).
  { exists [], v1. rewrite !app_nil_r.
    destruct (invariants_of_runs e m evs1) as (Horder & _).
    destruct (Horder this v1 Hv1) as [Hok _].
    pose proof (TapFacts.object_of_run _ _ _ _ _ Hv1) as Hc.
    apply TapFacts.constructed_object in Hc as (Hc & _).
    assert (is_Some (readableController v1)) by (rewrite Hc; by eexists).
    by split_and!. }
  assert (Hkeep : forall w w', atomic w w' -> P w -> P w').
  { clear Hv2 Hopen v2. intros w w' Hat (later & v & Hin & Hv & Hl & Hc & Hok & Hobs).
    destruct Hat as [w w' _ Hh _ _ Hi|w bytes|w h framePtr len|w k rest _|w h
                    |w h o frame _|w o f Hf|w h].
    - exists later, v. rewrite Hh, Hi. by split_and!.
    - by exists later, v.
    - by exists later, v.
    - by exists later, v.
    - exists later, v. split_and!; auto.
      unfold register_tap_interface. simpl. by apply lookup_app_l_Some.
    - destruct (deliver_fields w o frame) as (_ & _ & _ & _ & Hcase).
      destruct (heap w !! o) as [vo|] eqn:Hvo; destruct Hcase as [Hheap Hinb];
        [|exists later, v; rewrite Hheap, Hinb; by split_and!].
      destruct (decide (o = this)) as [->|Hne].
      + assert (vo = v) as -> by congruence.
        destruct (receiveFrame_facts v (Owned (length (buffers w))))
          as (_ & Hc' & Hl' & Hcl' & _ & Hrecv).
        destruct (Hrecv Hok) as (Hok' & _ & Happend).
        exists (later ++ [(this, Owned (length (buffers w)))]),
          (receiveFrame v (Owned (length (buffers w)))).1.
        rewrite Hheap, Hinb, Hin, app_assoc. split_and!; auto.
        * apply list_lookup_insert_eq. by eapply lookup_lt_Some.
        * congruence.
        * congruence.
        * rewrite Hcl'. intros Hopen. rewrite (Happend Hl Hc Hopen), (Hobs Hopen).
          rewrite frames_for_snoc, decide_True by done. by rewrite app_assoc.
      + exists (later ++ [(o, Owned (length (buffers w)))]), v.
        rewrite Hheap, Hinb, Hin, app_assoc. split_and!; auto.
        * by rewrite list_lookup_insert_ne.
        * intros Hopen. rewrite frames_for_snoc, decide_False by done.
          rewrite app_nil_r. auto.
    - simpl. destruct (decide (o = this)) as [->|Hne].
      + destruct (consumer_method_facts f v Hf)
          as (_ & Hc' & Hl' & _ & Hok' & _ & Hsame & _).
        exists later, (f v). split_and!; auto.
        * simpl. by rewrite list_lookup_alter_eq, Hv.
        * congruence.
        * intros Hopen. destruct (Hsame Hopen) as [Hopen' ->]. auto.
      + exists later, v. split_and!; auto.
        simpl. by rewrite list_lookup_alter_ne.
    - by exists later, v. }
  destruct (invariant_of_runs P Hkeep w1 (run w1 evs2) (steps_run w1 evs2) Hstart)
    as (later & v & Hin & Hv & _ & _ & _ & Hobs).
  assert (v = v2) as -> by congruence. exists later. auto.
Qed.

Lemma snd_determines_fst {A B : Type} (l : list (A * B)) (a a' : A) (b : B) :
  NoDup l.*2 -> (a, b) ∈ l -> (a', b) ∈ l -> a = a'.
Proof.
  induction l as [|[a0 b0] l IH]; simpl; intros Hnd Hin Hin';
    [inversion Hin|].
  apply NoDup_cons in Hnd as [Hb0 Hnd].
  apply elem_of_cons in Hin as [Heq|Hin];
    apply elem_of_cons in Hin' as [Heq'|Hin'].
  - congruence.
  - inversion Heq; subst. destruct Hb0. apply list_elem_of_fmap.
    by exists (a', b0).
  - inversion Heq'; subst. destruct Hb0. apply list_elem_of_fmap.
    by exists (a, b0).
  - auto.
Qed.

(** X3: every chunk a consumer can observe is an array that owns an allocated
    buffer of its own: it is not a view of the engine's memory, it is not
    the copy a pending continuation still holds, and it is observable at one
    place only, of one interface only. *)
Theorem chunks_are_never_shared
  (e : E) (m : Memory) (evs : list (Event E)) (this this' : ObjRef)
  (v v' : VirtualTapInterface) (i j : nat) (chunk : Uint8Array) :
  let w := run (init e m) evs in
  heap w !! this = Some v ->
  heap w !! this' = Some v' ->
  observable v !! i = Some chunk ->
  observable v' !! j = Some chunk ->
  (this = this' /\ i = j) /\
  (exists id, chunk = Owned id /\ id < length (buffers w)) /\
  chunk ∉ pending_frames w.
Proof.
  intros w Hv Hv' Hi Hj.
  destruct (invariants_of_runs e m evs) as (Horder & [Hown Hnodup] & _).
  fold w in Horder, Hown, Hnodup.
  destruct (Horder _ _ Hv) as [_ Hsub]. destruct (Horder _ _ Hv') as [_ Hsub'].
  apply NoDup_app in Hnodup as (Hnd & Hdisj & _).
  assert (Hin : (this, chunk) ∈ inbound w).
  { apply frames_for_elem_of. eapply elem_of_sublist; [|exact Hsub].
    by eapply list_elem_of_lookup_2. }
  assert (Hin' : (this', chunk) ∈ inbound w).
  { apply frames_for_elem_of. eapply elem_of_sublist; [|exact Hsub'].
    by eapply list_elem_of_lookup_2. }
  assert (Hsnd : chunk ∈ (inbound w).*2).
  { apply list_elem_of_fmap. by exists (this, chunk). }
  assert (this = this') as <- by (by eapply snd_determines_fst).
  split_and!; [done | | |].
  - assert (v' = v) as -> by congruence.
    apply (NoDup_lookup (observable v) i j chunk); [|exact Hi | exact Hj].
    eapply sublist_NoDup; [exact Hnd|].
    etrans; [exact Hsub | apply frames_for_sublist].
  - apply Hown. apply elem_of_app. by left.
  - by apply Hdisj.
Qed.

End Frames.

(** *** The registry and the hooks *)

Section Registry.
Context {E : Type} `{!TapExports E} `{!Imported}.
Implicit Types (w : World E) (o : ObjRef) (h : TapInterfaceHandle).

Abbreviation steps := (rtc atomic).

Lemma Map_get_of_elem {V : Type} (m : list (Z * V)) (k : Z) (v : V) :
  NoDup m.*1 -> (k, v) ∈ m -> Map_get m k = Some v.
Proof.
  induction m as [|[k0 v0] m IH]; simpl; intros Hnd Hin; [inversion Hin|].
  apply NoDup_cons in Hnd as [Hk0 Hnd].
  apply elem_of_cons in Hin as [Heq|Hin].
  - inversion Heq; subst. by rewrite decide_True.
  - destruct (decide (k0 = k)) as [->|Hne]; [|auto].
    destruct Hk0. apply list_elem_of_fmap. by exists (k, v).
Qed.

Lemma Map_get_split {V : Type} (m : list (Z * V)) (k : Z) (v : V) :
  Map_get m k = Some v ->
  exists before after, m = before ++ (k, v) :: after.
Proof.
  intros Hget. apply TapFacts.Map_get_elem_of in Hget.
  by apply list_elem_of_split.
Qed.

(** The engine's calls of the imports only add entries for objects they
    create. *)
Lemma entries_after_actions w (actions : list EngineAction) h o :
  (h, o) ∈ interfaces (foldl do_action w actions) ->
  (h, o) ∈ interfaces w \/ length (heap w) <= o.
Proof.
  revert w. induction actions as [|a actions IH]; intros w; simpl; [auto|].
  intros Hin. destruct (IH _ Hin) as [Hold|Hnew].
  - destruct a as [ptr bytes|h'|h' framePtr len]; simpl in Hold; auto.
    unfold register_tap_interface in Hold. simpl in Hold.
    apply TapFacts.Map_set_elem_of in Hold as [Hold|Heq]; [auto|].
    inversion Heq; subst. by right.
  - right. destruct a as [ptr bytes|h'|h' framePtr len]; simpl in Hnew; auto.
    unfold register_tap_interface in Hnew. simpl in Hnew.
    rewrite length_app in Hnew. simpl in Hnew. lia.
Qed.

(** [remove] of the object a handle resolves to. *)
Lemma remove_of_registered w h o :
  registry_consistent w ->
  Map_get (interfaces w) h = Some o ->
  remove w o =
  set_interfaces
    (Map_delete
       (interfaces (engine_call w (remove_tap_interface (engine w) (memory w) h)).1)
       h)
    (engine_call w (remove_tap_interface (engine w) (memory w) h)).1.
Proof.
  intros (Hkeys & Hvals & _) Hget.
  destruct (Map_get_split _ _ _ Hget) as (before & after & Heq).
  unfold remove. rewrite Heq at 1.
  apply TapFacts.remove_entries_found.
  intros h' Hin. rewrite Heq in Hvals. rewrite fmap_app in Hvals.
  apply NoDup_app in Hvals as (_ & Hdisj & _).
  apply (Hdisj o).
  - apply list_elem_of_fmap. by exists (h', o).
  - simpl. left.
Qed.

(** X4: in every world of a run the registry is injective both ways: a handle
    resolves to at most one interface and an interface is registered under
    at most one handle; and the object a handle resolves to exists and its
    outer hooks hold that handle. *)
Theorem registry_is_injective
  (e : E) (m : Memory) (evs : list (Event E)) h h' (this : ObjRef) :
  let w := run (init e m) evs in
  Map_get (interfaces w) h = Some this ->
  (Map_get (interfaces w) h' = Some this -> h' = h) /\
  (exists v, heap w !! this = Some v /\ outerHooks v = Some (mkOuterHooks h)) /\
  getOuter w this = Ok (mkOuterHooks h).
Proof.
  intros w Hget.
  destruct (invariants_of_runs e m evs) as (_ & _ & Hkeys & Hvals & Hent & _).
  fold w in Hkeys, Hvals, Hent.
  apply TapFacts.Map_get_elem_of in Hget.
  destruct (Hent _ _ Hget) as (v & Hv & Hhooks). split_and!.
  - intros Hget'. apply TapFacts.Map_get_elem_of in Hget'.
    by eapply snd_determines_fst.
  - by exists v.
  - unfold getOuter. by rewrite Hv, Hhooks.
Qed.

(** X5: the sink of the interface a handle resolves to sends on that handle:
    its [write] is the outer hook [sendFrame] for the handle, with a failure
    turned into a console entry. *)
Theorem write_sends_on_the_registered_handle
  (e : E) (m : Memory) (evs : list (Event E)) h (this : ObjRef)
  (packet : Uint8Array) :
  let w := run (init e m) evs in
  Map_get (interfaces w) h = Some this ->
  sink_write w this packet =
  (let sent := sendFrame w h packet in
   match sent.2 with
   | Ok _ => (sent.1, Ok tt)
   | Err err => (set_console (console sent.1 ++ [SendFailedLog err]) sent.1, Ok tt)
   end).
Proof.
  intros w Hget.
  destruct (invariants_of_runs e m evs) as (_ & _ & _ & _ & Hent & _).
  apply TapFacts.Map_get_elem_of in Hget.
  destruct (Hent _ _ Hget) as (v & Hv & Hhooks).
  unfold sink_write, getOuter. subst w. rewrite Hv, Hhooks. simpl.
  by destruct (sendFrame _ h packet) as [w' [[]|err]].
Qed.

(** X6: [remove] inverts the lookup: for the interface a handle resolves to,
    it is that handle the engine is told to free and that handle which is
    deleted; afterwards the handle resolves to nothing. *)
Theorem remove_inverts_the_lookup
  (e : E) (m : Memory) (evs : list (Event E)) h (this : ObjRef) :
  let w := run (init e m) evs in
  Map_get (interfaces w) h = Some this ->
  let w1 := (engine_call w (remove_tap_interface (engine w) (memory w) h)).1 in
  remove w this = set_interfaces (Map_delete (interfaces w1) h) w1 /\
  Map_get (interfaces (remove w this)) h = None.
Proof.
  intros w Hget w1.
  destruct (invariants_of_runs e m evs) as (_ & _ & Hcons).
  pose proof (remove_of_registered w h this Hcons Hget) as Hrm.
  split; [exact Hrm|]. rewrite Hrm. simpl. apply TapFacts.Map_get_delete.
Qed.

(** X7: after [remove] no handle resolves to the interface any more, whatever
    the engine registered during the call, so a second [remove] of the same
    interface changes nothing and does not enter the engine. *)
Theorem remove_is_idempotent
  (e : E) (m : Memory) (evs : list (Event E)) (this : ObjRef) :
  let w := run (init e m) evs in
  (forall h, (h, this) ∉ interfaces (remove w this)) /\
  remove (remove w this) this = remove w this.
Proof.
  intros w.
  assert (Hnone : forall h, (h, this) ∉ interfaces (remove w this)).
  { destruct (invariants_of_runs e m evs) as (_ & _ & Hcons).
    fold w in Hcons. pose proof Hcons as (Hkeys & Hvals & Hent & _).
    destruct (decide (this ∈ (interfaces w).*2)) as [Hin|Hout].
    - apply list_elem_of_fmap in Hin as ([h0 o0] & Ho0 & Hin). simpl in Ho0.
      subst o0. pose proof (Map_get_of_elem _ _ _ Hkeys Hin) as Hget.
      rewrite (remove_of_registered w h0 this Hcons Hget). simpl.
      intros h Hh. apply TapFacts.Map_delete_elem_of in Hh as [Hh Hne].
      unfold engine_call in Hh. simpl in Hh.
      apply entries_after_actions in Hh as [Hold|Hnew]; simpl in *.
      + apply Hne. by eapply snd_determines_fst.
      + destruct (Hent _ _ Hin) as (v & Hv & _).
        apply lookup_lt_Some in Hv. lia.
    - assert (Habsent : forall h, (h, this) ∉ interfaces w).
      { intros h Hh. apply Hout. apply list_elem_of_fmap. by exists (h, this). }
      assert (Hsame : remove w this = w)
        by (by apply TapFacts.remove_entries_absent).
      by rewrite Hsame. }
  split; [exact Hnone|]. by apply TapFacts.remove_entries_absent.
Qed.


(** X9: the outer hooks of an object never change, and [remove] does not take
    them away: whatever happens after the interface of a handle was removed,
    a write to its sink still enters the engine's send operation with that
    handle. *)
Theorem removed_interface_keeps_its_handle
  (e : E) (m : Memory) (evs evs' : list (Event E)) h (this : ObjRef)
  (packet : Uint8Array) :
  let w := run (init e m) evs in
  Map_get (interfaces w) h = Some this ->
  let w' := run (remove w this) evs' in
  getOuter w' this = Ok (mkOuterHooks h) /\
  sink_write w' this packet =
  (let sent := sendFrame w' h packet in
   match sent.2 with
   | Ok _ => (sent.1, Ok tt)
   | Err err => (set_console (console sent.1 ++ [SendFailedLog err]) sent.1, Ok tt)
   end).
Proof.
  intros w Hget w'.
  destruct (invariants_of_runs e m evs) as (_ & _ & _ & _ & Hent & _).
  apply TapFacts.Map_get_elem_of in Hget.
  destruct (Hent _ _ Hget) as (v & Hv & Hhooks). fold w in Hv.
  assert (Hsteps : steps w w').
  { etrans; [apply steps_remove_entries | apply steps_run]. }
  assert (Hpre : PreOrder (fun v v' : VirtualTapInterface =>
                             outerHooks v' = outerHooks v)).
  { split; [by intros ? | intros ? ? ? ? ?; congruence]. }
  destruct (@object_tracked E _ Hpre
              (fun f v Hf => proj1 (consumer_method_facts f v Hf))
              (fun v fr => proj1 (receiveFrame_facts v fr))
              w w' Hsteps this v Hv) as (v' & Hv' & Hsame).
  assert (Houter : getOuter w' this = Ok (mkOuterHooks h)).
  { unfold getOuter. rewrite Hv', Hsame, Hhooks. done. }
  split; [exact Houter|]. unfold sink_write. rewrite Houter. simpl.
  by destruct (sendFrame w' h packet) as [w'' [[]|err]].
Qed.

End Registry.

(** *** Deferral, cancellation and the way of a frame *)

Section Delivery.
Context {E : Type} `{!TapExports E} `{!Imported}.
Implicit Types (w : World E) (o : ObjRef) (h : TapInterfaceHandle).

Abbreviation steps := (rtc atomic).

Lemma actions_only_defer w (actions : list EngineAction) :
  let w' := foldl do_action w actions in
  heap w `prefix_of` heap w' /\
  (forall o v, heap w' !! o = Some v -> length (heap w) <= o ->
     exists h, v = setOuter VirtualTapInterface_new (mkOuterHooks h)) /\
  inbound w' = inbound w /\
  console w' = console w /\
  rejections w' = rejections w /\
  pending_handles w' = pending_handles w ++ received_handles actions.
Proof.
  revert w. induction actions as [|a actions IH]; intros w; simpl.
  - split_and!; auto.
    + intros o v Hv Hge. apply lookup_lt_Some in Hv. lia.
    + unfold received_handles. simpl. by rewrite app_nil_r.
  - destruct (IH (do_action w a)) as (Hpre & Hnew & Hin & Hcon & Hrej & Hpend).
    assert (Hone : heap w `prefix_of` heap (do_action w a) /\
              (forall o v, heap (do_action w a) !! o = Some v ->
                 length (heap w) <= o ->
                 exists h, v = setOuter VirtualTapInterface_new (mkOuterHooks h)) /\
              inbound (do_action w a) = inbound w /\
              console (do_action w a) = console w /\
              rejections (do_action w a) = rejections w /\
              pending_handles (do_action w a) =
              pending_handles w ++ received_handles [a]).
    { unfold pending_handles, received_handles.
      destruct a as [ptr bytes|h|h framePtr len]; simpl.
      - split_and!; auto; [|by rewrite app_nil_r].
        intros o v Hv Hge. apply lookup_lt_Some in Hv. lia.
      - unfold register_tap_interface. simpl. split_and!; auto.
        + by apply prefix_app_r.
        + intros o v Hv Hge.
          apply lookup_app_Some in Hv as [Hv|[_ Hv]];
            [apply lookup_lt_Some in Hv; lia|].
          apply list_elem_of_lookup_2, list_elem_of_singleton in Hv as ->.
          by exists h.
        + by rewrite app_nil_r.
      - unfold receive_frame, copyFromMemory, nextMicrotask. simpl.
        split_and!; auto; [|by rewrite fmap_app].
        intros o v Hv Hge. apply lookup_lt_Some in Hv. lia. }
    destruct Hone as (Hpre1 & Hnew1 & Hin1 & Hcon1 & Hrej1 & Hpend1).
    split_and!; try congruence.
    + by etrans.
    + intros o v Hv Hge.
      destruct (decide (o < length (heap (do_action w a)))) as [Hlt|Hnlt].
      * apply lookup_lt_is_Some_2 in Hlt as [v1 Hv1].
        rewrite (prefix_lookup_Some _ _ _ _ Hv1 Hpre) in Hv.
        inversion Hv; subst. eauto.
      * apply (Hnew o v Hv). lia.
    + rewrite Hpend, Hpend1, <- app_assoc. f_equal.
      unfold received_handles. simpl. by destruct a.
Qed.

(** X10: while the engine runs, nothing is delivered: the objects that exist
    are not touched and those the engine registers stay as constructed, no
    inner hook is called and nothing is logged; the frames the engine hands
    over are only queued as microtasks, in the order of the calls. *)
Theorem engine_calls_only_defer {A : Type} w (r : EngineRun E A) :
  let w' := (engine_call w r).1 in
  heap w `prefix_of` heap w' /\
  (forall o v, heap w' !! o = Some v -> length (heap w) <= o ->
     exists h, v = setOuter VirtualTapInterface_new (mkOuterHooks h)) /\
  inbound w' = inbound w /\
  console w' = console w /\
  rejections w' = rejections w /\
  pending_handles w' = pending_handles w ++ received_handles (engine_actions r).
Proof.
  unfold engine_call. simpl.
  apply (actions_only_defer (set_engine (engine_next r) w)).
Qed.

(** The objects [create] adds to the heap are as constructed, and the
    object it returns is the one a handle resolves to. *)
Lemma create_adds_fresh_objects w (options : TapInterfaceOptions) :
  let w' := (create w options).1 in
  (forall o v, heap w' !! o = Some v -> length (heap w) <= o ->
     exists h, v = setOuter VirtualTapInterface_new (mkOuterHooks h)) /\
  (forall this, (create w options).2 = Ok this ->
     exists h, Map_get (interfaces w') h = Some this).
Proof.
  unfold create.
  set (first := (match truthy (mac options) with
                 | Some m => (w, serializeMacAddress m)
                 | None => (set_draws (S (draws w)) w,
                            Ok (generateMacAddress (draws w)))
                 end)).
  assert (H0 : heap first.1 = heap w).
  { subst first. by destruct (truthy (mac options)). }
  assert (Hold : forall wa : World E, heap wa = heap w ->
            forall o v, heap wa !! o = Some v -> length (heap w) <= o ->
            exists h, v = setOuter VirtualTapInterface_new (mkOuterHooks h)).
  { intros wa Ha o v Hv Hge. rewrite Ha in Hv.
    apply lookup_lt_Some in Hv. lia. }
  assert (Hcall : forall (wa : World E) (ipAddressPtr netmaskPtr : option Pointer)
                         macAddressPtr,
    heap wa = heap w ->
    let res :=
      (let '(w4, h) :=
         engine_call wa
           (create_tap_interface (engine wa) (memory wa) macAddressPtr
              (default 0%Z ipAddressPtr) (default 0%Z netmaskPtr)) in
       let tapInterface := Map_get (interfaces w4) h in
       let w5 := dispose (dispose (dispose w4 netmaskPtr) ipAddressPtr)
                   (Some macAddressPtr) in
       match tapInterface with
       | None => (w5, Err RegistrationFailed)
       | Some tapInterface => (w5, Ok tapInterface)
       end) in
    (forall o v, heap res.1 !! o = Some v -> length (heap w) <= o ->
       exists h, v = setOuter VirtualTapInterface_new (mkOuterHooks h)) /\
    (forall this, res.2 = Ok this ->
       exists h, Map_get (interfaces res.1) h = Some this)).
  { intros wa ipAddressPtr netmaskPtr macAddressPtr Ha.
    pose proof (actions_only_defer
                  (set_engine
                     (engine_next
                        (create_tap_interface (engine wa) (memory wa)
                           macAddressPtr (default 0%Z ipAddressPtr)
                           (default 0%Z netmaskPtr))) wa)
                  (engine_actions
                     (create_tap_interface (engine wa) (memory wa)
                        macAddressPtr (default 0%Z ipAddressPtr)
                        (default 0%Z netmaskPtr))))
      as (_ & Hnew & _).
    change (foldl do_action _ _)
      with (engine_call wa
              (create_tap_interface (engine wa) (memory wa) macAddressPtr
                 (default 0%Z ipAddressPtr) (default 0%Z netmaskPtr))).1
      in Hnew.
    destruct (engine_call wa _) as [w4 h]. simpl in Hnew. rewrite Ha in Hnew.
    assert (Hfields :
      interfaces (dispose (dispose (dispose w4 netmaskPtr) ipAddressPtr)
                    (Some macAddressPtr)) = interfaces w4 /\
      heap (dispose (dispose (dispose w4 netmaskPtr) ipAddressPtr)
              (Some macAddressPtr)) = heap w4).
    { by destruct netmaskPtr, ipAddressPtr. }
    destruct Hfields as [Hi Hh]. cbv zeta.
    destruct (Map_get (interfaces w4) h) as [o|] eqn:Hget; cbn [fst snd];
      rewrite Hh; (split; [exact Hnew|]).
    - intros this [= <-]. exists h. by rewrite Hi.
    - discriminate. }
  destruct first as [w0 [macAddress|e]]; simpl in H0;
    [|split; [by apply Hold | discriminate]].
  destruct (truthy (ip options)) as [c|];
    [destruct (serializeIPv4Cidr c) as [[ipAddress netmask]|e];
     [|split; [by apply Hold | discriminate]]|].
  - destruct (TapFacts.copyToMemory_fields w0 macAddress) as (_ & Hh1 & _).
    destruct (copyToMemory w0 macAddress) as [w1 macAddressPtr].
    destruct (TapFacts.copyToMemory_fields w1 ipAddress) as (_ & Hh2 & _).
    destruct (copyToMemory w1 ipAddress) as [w2 ipAddressPtr].
    destruct (TapFacts.copyToMemory_fields w2 netmask) as (_ & Hh3 & _).
    destruct (copyToMemory w2 netmask) as [w3 netmaskPtr].
    simpl in *.
    apply (Hcall w3 (Some ipAddressPtr) (Some netmaskPtr) macAddressPtr).
    congruence.
  - destruct (TapFacts.copyToMemory_fields w0 macAddress) as (_ & Hh1 & _).
    destruct (copyToMemory w0 macAddress) as [w1 macAddressPtr].
    simpl in *. apply (Hcall w1 None None macAddressPtr). congruence.
Qed.

(** X11: an interface that [create] has made comes back exactly as
    constructed, with the hooks of its handle: not listening, unlocked,
    nothing queued; and no frame has reached it, even if the engine handed
    some over during the call. *)
Theorem created_interface_starts_fresh
  (e : E) (m : Memory) (evs : list (Event E)) (options : TapInterfaceOptions)
  (this : ObjRef) :
  let w := run (init e m) evs in
  let w' := (create w options).1 in
  (create w options).2 = Ok this ->
  length (heap w) <= this ->
  exists h,
    Map_get (interfaces w') h = Some this /\
    heap w' !! this = Some (setOuter VirtualTapInterface_new (mkOuterHooks h)) /\
    inbound w' = inbound w.
Proof.
  intros w w' Hok Hnew.
  destruct (create_adds_fresh_objects w options) as [Hfresh Hreg].
  destruct (Hreg this Hok) as (h & Hget). exists h.
  assert (Hrun : w' = run (init e m) (evs ++ [EvCreate options])).
  { by rewrite TapFacts.run_app. }
  destruct (invariants_of_runs e m (evs ++ [EvCreate options]))
    as (_ & _ & _ & _ & Hent & _).
  rewrite <- Hrun in Hent.
  destruct (Hent h this (TapFacts.Map_get_elem_of _ _ _ Hget)) as (v & Hv & Hh).
  destruct (Hfresh this v Hv Hnew) as (h' & ->).
  simpl in Hh. inversion Hh; subst h'.
  split_and!; [done | done |]. apply TapFacts.inbound_create.
Qed.

(** X12: a cancelled stream stays closed: its queue is empty and stays empty,
    and what has been handed to its readers is all they will ever get. *)
Theorem cancelled_stream_stays_closed
  (e : E) (m : Memory) (evs evs' : list (Event E)) (this : ObjRef)
  (v v' : VirtualTapInterface) :
  heap (run (init e m) evs) !! this = Some v ->
  closed (readable v) = true ->
  heap (run (run (init e m) evs) evs') !! this = Some v' ->
  closed (readable v') = true /\
  queue (readable v) = [] /\
  queue (readable v') = [] /\
  delivered (readable v') = delivered (readable v).
Proof.
  intros Hv Hclosed Hv'.
  destruct (invariants_of_runs e m evs) as (Horder & _).
  destruct (Horder this v Hv) as [Hok _].
  set (Q := fun a b : VirtualTapInterface =>
    closed (readable a) = true -> stream_ok (readable a) ->
    closed (readable b) = true /\ stream_ok (readable b) /\
    observable b = observable a).
  assert (Hpre : PreOrder Q).
  { split.
    - by intros a Ha Hoka.
    - intros a b c Hab Hbc Ha Hoka.
      destruct (Hab Ha Hoka) as (Hb & Hokb & Hobs).
      destruct (Hbc Hb Hokb) as (Hc & Hokc & Hobs').
      split_and!; auto. congruence. }
  assert (Hmethod : forall f a, consumer_method f -> Q a (f a)).
  { intros f a Hf Ha Hoka.
    destruct (consumer_method_facts f a Hf)
      as (_ & _ & _ & Hcl & Hok' & _ & _ & Hsame).
    auto. }
  assert (Hhook : forall a fr, Q a (receiveFrame a fr).1).
  { intros a fr Ha Hoka.
    destruct (receiveFrame_facts a fr) as (_ & _ & _ & _ & Hsame & _).
    by rewrite (Hsame Ha). }
  destruct (@object_tracked E Q Hpre Hmethod Hhook _ _
              (steps_run (run (init e m) evs) evs') this v Hv)
    as (v2 & Hv2 & Hq).
  assert (v2 = v') as -> by congruence.
  destruct (Hq Hclosed Hok) as (Hclosed' & Hok' & Hobs).
  destruct Hok as [_ Hcl]. destruct (Hcl Hclosed) as [Hqv _].
  destruct Hok' as [_ Hcl']. destruct (Hcl' Hclosed') as [Hqv' _].
  unfold observable in Hobs. rewrite Hqv, Hqv', !app_nil_r in Hobs.
  by split_and!.
Qed.

(** X13: the way of a frame: when the engine hands the bytes at [framePtr] to
    the handle of an interface that is listening and whose stream is open, and
    the continuation then runs, the consumer's next chunk is a new array
    holding exactly the bytes the memory held at the call. *)
Theorem delivered_frame_reaches_the_consumer
  (e : E) (m : Memory) (evs : list (Event E)) h (this : ObjRef)
  (v : VirtualTapInterface) (e' : E) (framePtr : Pointer) (len : nat) :
  let w := run (init e m) evs in
  Map_get (interfaces w) h = Some this ->
  heap w !! this = Some v ->
  isListening v = true ->
  closed (readable v) = false ->
  microtasks w = [] ->
  let w' :=
    run w [EvEngine (mkEngineRun e' [CallReceiveFrame h framePtr len] tt);
           EvMicrotask] in
  exists v' chunk,
    heap w' !! this = Some v' /\
    observable v' = observable v ++ [chunk] /\
    contents w' chunk = load_bytes (memory w) framePtr len /\
    microtasks w' = [].
Proof.
  intros w Hget Hv Hlis Hopen Hempty w'.
  destruct (invariants_of_runs e m evs) as (Horder & _).
  destruct (Horder this v Hv) as [Hok _].
  pose proof (TapFacts.object_of_run _ _ _ _ _ Hv) as Hc.
  apply TapFacts.constructed_object in Hc as (Hc & _).
  destruct (receiveFrame_facts v (Owned (S (length (buffers w)))))
    as (_ & _ & _ & _ & _ & Hrecv).
  destruct (Hrecv Hok) as (_ & _ & Happend).
  assert (Hsome : is_Some (readableController v)) by (rewrite Hc; by eexists).
  specialize (Happend Hlis Hsome Hopen).
  subst w'. unfold run. simpl.
  unfold engine_call. simpl.
  unfold receive_frame, copyFromMemory, nextMicrotask. simpl.
  fold w. rewrite Hempty. simpl.
  unfold receive_frame_resume. simpl. rewrite Hget.
  unfold Uint8Array_from, call_receiveFrame. simpl.
  rewrite Hv, length_app. simpl.
  replace (length (buffers w) + 1) with (S (length (buffers w))) by lia.
  destruct (receiveFrame v (Owned (S (length (buffers w))))) as [v' r] eqn:Hr.
  simpl in Happend.
  exists v', (Owned (S (length (buffers w)))).
  set (snapshot := load_bytes (memory w) framePtr len).
  assert (Hfirst : (buffers w ++ [snapshot]) !! length (buffers w)
                   = Some snapshot) by (by apply list_lookup_middle).
  assert (Hsecond : forall y : list Z,
            ((buffers w ++ [snapshot]) ++ [y]) !! S (length (buffers w))
            = Some y).
  { intros y. apply list_lookup_middle. rewrite length_app. simpl. lia. }
  destruct r as [[]|err]; simpl; rewrite Hfirst, Hsecond; simpl;
    (split_and!; [|done..]);
    apply list_lookup_insert_eq; by eapply lookup_lt_Some.
Qed.

End Delivery.

(** *** The address accessors *)

Section Addresses.
Context {E : Type} `{!TapExports E} `{!Imported}.
Context `{!AddressExports E} `{!AddressCodec}.

(** X14: the getters [mac], [ip] and [netmask] of the interface a handle
    resolves to ask the engine about that handle, on every call; [ip] and
    [netmask] are [undefined] exactly when the engine answers with the null
    pointer, and the MAC address is parsed from the six bytes at the pointer
    the engine answers with, as the memory is after the call. *)
Theorem accessors_ask_the_engine
  (e : E) (m : Memory) (evs : list (Event E)) (h : TapInterfaceHandle)
  (this : ObjRef) :
  let w := run (init e m) evs in
  Map_get (interfaces w) h = Some this ->
  VirtualTapInterface_mac w this = getMacAddress w h /\
  VirtualTapInterface_ip w this = getIPv4Address w h /\
  VirtualTapInterface_netmask w this = getIPv4Netmask w h /\
  ((getIPv4Address w h).2 = Ok None <->
   engine_result (get_interface_ip4_address (engine w) (memory w) h) = 0%Z) /\
  ((getIPv4Netmask w h).2 = Ok None <->
   engine_result (get_interface_ip4_netmask (engine w) (memory w) h) = 0%Z) /\
  (let call := get_interface_mac_address (engine w) (memory w) h in
   (getMacAddress w h).2 =
   parseMacAddress
     (load_bytes (memory (engine_call w call).1) (engine_result call) 6)).
Proof.
  intros w Hget.
  destruct (invariants_of_runs e m evs) as (_ & _ & _ & _ & Hent & _).
  apply TapFacts.Map_get_elem_of in Hget.
  destruct (Hent _ _ Hget) as (v & Hv & Hhooks).
  assert (Houter : getOuter w this = Ok (mkOuterHooks h)).
  { unfold getOuter. subst w. by rewrite Hv, Hhooks. }
  unfold VirtualTapInterface_mac, VirtualTapInterface_ip,
    VirtualTapInterface_netmask. rewrite Houter. simpl.
  split_and!; try done.
  - unfold getIPv4Address, engine_call. simpl.
    destruct (decide (engine_result
                        (get_interface_ip4_address (engine w) (memory w) h)
                      = 0%Z)) as [Hz|Hnz]; simpl; [done|].
    split; [|done].
    by destruct (parseIPv4Address _).
  - unfold getIPv4Netmask, engine_call. simpl.
    destruct (decide (engine_result
                        (get_interface_ip4_netmask (engine w) (memory w) h)
                      = 0%Z)) as [Hz|Hnz]; simpl; [done|].
    split; [|done].
    by destruct (parseIPv4Address _).
Qed.

End Addresses.

(** *** The properties on the demonstration engine *)

Import Demo.

Ltac by_running := vm_compute; reflexivity.

Lemma chunks_follow_arrival_order_witness :
  observable (object (run (init 0 memory0) (listening ++ two_frames)) 0)
  `sublist_of`
  frames_for 0 (inbound (run (init 0 memory0) (listening ++ two_frames))).
Proof.
  apply chunks_follow_arrival_order. by_running.
Defined.

Lemma listening_loses_no_frame_witness :
  exists later,
    inbound (run (run (init 0 memory0) listening) two_frames)
    = inbound (run (init 0 memory0) listening) ++ later /\
    observable (object (run (run (init 0 memory0) listening) two_frames) 0)
    = observable (object (run (init 0 memory0) listening) 0)
      ++ frames_for 0 later.
Proof.
  apply listening_loses_no_frame; by_running.
Defined.

Lemma chunks_are_never_shared_witness :
  (0 = 0 /\ 1 = 1) /\
  (exists id, Owned 3 = Owned id /\
     id < length (buffers (run (init 0 memory0) (listening ++ two_frames)))) /\
  Owned 3 ∉ pending_frames (run (init 0 memory0) (listening ++ two_frames)).
Proof.
  apply (chunks_are_never_shared 0 memory0 (listening ++ two_frames) 0 0
           (object (run (init 0 memory0) (listening ++ two_frames)) 0)
           (object (run (init 0 memory0) (listening ++ two_frames)) 0));
    by_running.
Defined.

Lemma registry_is_injective_witness :
  getOuter registered 0 = Ok (mkOuterHooks 7).
Proof.
  assert (Hget : Map_get (interfaces (run (init 0 memory0) [register7])) 7%Z
                 = Some 0) by by_running.
  exact (proj2 (proj2 (registry_is_injective 0 memory0 [register7] 7%Z 7%Z 0
                         Hget))).
Defined.

Lemma write_sends_on_the_registered_handle_witness :
  (sink_write registered 0 (MemoryView 16 3)).1 =
  set_console
    (console (sendFrame registered 7%Z (MemoryView 16 3)).1
     ++ [SendFailedLog (SendFailed 16)])
    (sendFrame registered 7%Z (MemoryView 16 3)).1.
Proof.
  assert (Hget : Map_get (interfaces (run (init 0 memory0) [register7])) 7%Z
                 = Some 0) by by_running.
  unfold registered, world0.
  rewrite (write_sends_on_the_registered_handle 0 memory0 [register7] 7%Z 0
             (MemoryView 16 3) Hget).
  reflexivity.
Defined.

Lemma remove_inverts_the_lookup_witness :
  Map_get (interfaces (remove registered 0)) 7%Z = None.
Proof.
  assert (Hget : Map_get (interfaces (run (init 0 memory0) [register7])) 7%Z
                 = Some 0) by by_running.
  exact (proj2 (remove_inverts_the_lookup 0 memory0 [register7] 7%Z 0 Hget)).
Defined.


Lemma removed_interface_keeps_its_handle_witness :
  getOuter (run (remove registered 0) delivery) 0 = Ok (mkOuterHooks 7).
Proof.
  assert (Hget : Map_get (interfaces (run (init 0 memory0) [register7])) 7%Z
                 = Some 0) by by_running.
  exact (proj1 (removed_interface_keeps_its_handle 0 memory0 [register7]
                  delivery 7%Z 0 (Owned 0) Hget)).
Defined.

Lemma created_interface_starts_fresh_witness :
  exists h,
    Map_get (interfaces (create world0 (mkOptions None None)).1) h = Some 0 /\
    heap (create world0 (mkOptions None None)).1 !! 0
    = Some (setOuter VirtualTapInterface_new (mkOuterHooks h)) /\
    inbound (create world0 (mkOptions None None)).1 = inbound world0.
Proof.
  apply (created_interface_starts_fresh 0 memory0 [] (mkOptions None None) 0).
  - by_running.
  - vm_compute. lia.
Defined.

Lemma cancelled_stream_stays_closed_witness :
  closed (readable (object (run (run (init 0 memory0) cancelled) delivery) 0))
  = true /\
  delivered (readable (object (run (run (init 0 memory0) cancelled) delivery) 0))
  = delivered (readable (object (run (init 0 memory0) cancelled) 0)).
Proof.
  destruct (cancelled_stream_stays_closed 0 memory0 cancelled delivery 0
              (object (run (init 0 memory0) cancelled) 0)
              (object (run (run (init 0 memory0) cancelled) delivery) 0))
    as (Hclosed & _ & _ & Hdelivered); [by_running..|].
  split; [exact Hclosed | exact Hdelivered].
Defined.

Lemma delivered_frame_reaches_the_consumer_witness :
  exists v' chunk,
    heap (run (run (init 0 memory0) listening)
            [EvEngine (mkEngineRun 5 [CallReceiveFrame 7 16 3] tt);
             EvMicrotask]) !! 0 = Some v' /\
    observable v' = [chunk] /\
    contents (run (run (init 0 memory0) listening)
                [EvEngine (mkEngineRun 5 [CallReceiveFrame 7 16 3] tt);
                 EvMicrotask]) chunk = [16; 17; 18]%Z.
Proof.
  destruct (delivered_frame_reaches_the_consumer 0 memory0 listening 7%Z 0
              (object (run (init 0 memory0) listening) 0) 5 16%Z 3)
    as (v' & chunk & Hv' & Hobs & Hbytes & _); [by_running..|].
  exists v', chunk. split_and!; [exact Hv' | exact Hobs | exact Hbytes].
Defined.

Lemma accessors_ask_the_engine_witness :
  (VirtualTapInterface_ip registered 0).2 = Ok (Some "10.0.0.1"%string) /\
  (VirtualTapInterface_netmask registered 0).2 = Ok None.
Proof.
  assert (Hget : Map_get (interfaces (run (init 0 memory0) [register7])) 7%Z
                 = Some 0) by by_running.
  destruct (accessors_ask_the_engine 0 memory0 [register7] 7%Z 0 Hget)
    as (_ & Hip & Hmask & _ & Hnone & _).
  unfold registered, world0. rewrite Hip, Hmask. split; [by_running|].
  apply Hnone. reflexivity.
Defined.

End TapRunsFacts.
